(** * Unity Game Portal backend: token authentication and save store

    A shallow embedding of [main.py]: the stateless bearer tokens built by
    [create_token] and checked by [verify_token] (HMAC-SHA256 over
    ["<user_id>:<exp>"]), the bearer-header dependency
    [get_current_user_id], and the two save handlers [get_saves] and
    [upsert_save] over the ["save"] collection.

    Python [str] values are lists of code points; the embedding covers the
    code points below 256, which is what [ascii] holds.  [bytes] are lists
    of integers in [0, 256).

    The clock is read as an integer number of microseconds since the Unix
    epoch (the resolution of [datetime]).  Arithmetic on instants is exact
    integer arithmetic: the year range of [datetime] and the rounding of
    the [float] that [timestamp()] returns are not part of the model.

    The collection is the list of its documents in insertion order, and
    documents are read back as they were written. *)

From Stdlib Require Import ZArith List Bool Ascii String Lia.
Import ListNotations.

Local Open Scope Z_scope.

(** ** Python strings and bytes *)

Definition str := list ascii.
Definition bytes := list Z.

Definition lit (s : string) : str := list_ascii_of_string s.

Definition ord (c : ascii) : Z := Z.of_N (N_of_ascii c).

Definition chr (n : Z) : ascii := ascii_of_N (Z.to_N n).

Definition colon : ascii := ":"%char.

(** [s.encode()]: UTF-8.  A code point below 128 is one byte, one in
    [128, 256) is the two bytes [110xxxxx 10xxxxxx]. *)
Definition encode_char (c : ascii) : bytes :=
  let n := ord c in
  if n <? 128 then [n]
  else [Z.lor 192 (Z.shiftr n 6); Z.lor 128 (Z.land n 63)].

Definition encode (s : str) : bytes := flat_map encode_char s.

(** ** SHA-256 ([hashlib.sha256]) *)

Module SHA256.

Definition mask32 : Z := 4294967295.

Definition add32 (x y : Z) : Z := Z.land (x + y) mask32.

Definition rotr (n x : Z) : Z :=
  Z.lor (Z.shiftr x n) (Z.land (Z.shiftl x (32 - n)) mask32).

Definition shr (n x : Z) : Z := Z.shiftr x n.

Definition not32 (x : Z) : Z := Z.lxor x mask32.

Definition ch (x y z : Z) : Z :=
  Z.lxor (Z.land x y) (Z.land (not32 x) z).

Definition maj (x y z : Z) : Z :=
  Z.lxor (Z.lxor (Z.land x y) (Z.land x z)) (Z.land y z).

Definition bsig0 (x : Z) : Z := Z.lxor (Z.lxor (rotr 2 x) (rotr 13 x)) (rotr 22 x).
Definition bsig1 (x : Z) : Z := Z.lxor (Z.lxor (rotr 6 x) (rotr 11 x)) (rotr 25 x).
Definition ssig0 (x : Z) : Z := Z.lxor (Z.lxor (rotr 7 x) (rotr 18 x)) (shr 3 x).
Definition ssig1 (x : Z) : Z := Z.lxor (Z.lxor (rotr 17 x) (rotr 19 x)) (shr 10 x).

(** The constants of the standard are the first 32 bits of the
    fractional parts of the cube roots (for the rounds) and of the square
    roots (for the initial chaining value) of the first primes; they are
    computed here rather than listed. *)
Definition is_prime (n : Z) : bool :=
  (1 <? n) &&
  forallb (fun d => negb (n mod d =? 0)) (map Z.of_nat (seq 2 (Z.to_nat n - 2))).

Definition primes : list Z := filter is_prime (map Z.of_nat (seq 2 310)).

Definition cube_root (n : Z) : Z :=
  fold_left (fun r b => let r' := r + 2 ^ Z.of_nat b in
                        if r' * r' * r' <=? n then r' else r)
            (rev (seq 0 36)) 0.

Definition cube_root_fraction (p : Z) : Z := Z.land (cube_root (p * 2 ^ 96)) mask32.

Definition square_root_fraction (p : Z) : Z := Z.land (Z.sqrt (p * 2 ^ 64)) mask32.

Definition round_constants : list Z :=
  Eval vm_compute in map cube_root_fraction primes.

(** The eight chaining words. *)
Record chain : Type := Chain {
  ha : Z; hb : Z; hc : Z; hd_ : Z; he : Z; hf : Z; hg : Z; hh : Z
}.

Definition chain_of_list (l : list Z) : chain :=
  Chain (nth 0 l 0) (nth 1 l 0) (nth 2 l 0) (nth 3 l 0)
        (nth 4 l 0) (nth 5 l 0) (nth 6 l 0) (nth 7 l 0).

Definition initial_chain : chain :=
  Eval vm_compute in chain_of_list (map square_root_fraction (firstn 8 primes)).

(** The message schedule is kept as a window of the sixteen most recent
    words, oldest first; the head of the window is the word of the
    current round. *)
Definition next_word (w : list Z) : Z :=
  add32 (add32 (add32 (ssig1 (nth 14 w 0)) (nth 9 w 0)) (ssig0 (nth 1 w 0)))
        (nth 0 w 0).

Definition slide (w : list Z) : list Z := tl w ++ [next_word w].

Definition round (st : chain * list Z) (k : Z) : chain * list Z :=
  let (v, w) := st in
  let t1 := add32 (add32 (add32 (add32 (hh v) (bsig1 (he v)))
                                (ch (he v) (hf v) (hg v))) k) (nth 0 w 0) in
  let t2 := add32 (bsig0 (ha v)) (maj (ha v) (hb v) (hc v)) in
  (Chain (add32 t1 t2) (ha v) (hb v) (hc v)
         (add32 (hd_ v) t1) (he v) (hf v) (hg v),
   slide w).

Definition compress (v : chain) (block : list Z) : chain :=
  let r := fst (fold_left round round_constants (v, block)) in
  Chain (add32 (ha v) (ha r)) (add32 (hb v) (hb r))
        (add32 (hc v) (hc r)) (add32 (hd_ v) (hd_ r))
        (add32 (he v) (he r)) (add32 (hf v) (hf r))
        (add32 (hg v) (hg r)) (add32 (hh v) (hh r)).

(** Big-endian packing. *)
Definition be32 (w : Z) : bytes :=
  [ Z.land (Z.shiftr w 24) 255; Z.land (Z.shiftr w 16) 255;
    Z.land (Z.shiftr w 8) 255; Z.land w 255 ].

Definition be64 (n : Z) : bytes :=
  be32 (Z.land (Z.shiftr n 32) mask32) ++ be32 (Z.land n mask32).

Fixpoint words (n : nat) (bs : bytes) : list Z :=
  match n with
  | O => []
  | S n' =>
      match bs with
      | b0 :: b1 :: b2 :: b3 :: rest =>
          (Z.lor (Z.lor (Z.shiftl b0 24) (Z.shiftl b1 16))
                 (Z.lor (Z.shiftl b2 8) b3)) :: words n' rest
      | _ => []
      end
  end.

Definition pad (msg : bytes) : bytes :=
  let len := Z.of_nat (List.length msg) in
  msg ++ [128] ++ repeat 0 (Z.to_nat ((55 - len) mod 64)) ++ be64 (8 * len).

Fixpoint absorb (n : nat) (v : chain) (bs : bytes) : chain :=
  match n with
  | O => v
  | S n' => absorb n' (compress v (words 16 (firstn 64 bs))) (skipn 64 bs)
  end.

Definition chain_bytes (v : chain) : bytes :=
  be32 (ha v) ++ be32 (hb v) ++ be32 (hc v) ++ be32 (hd_ v) ++
  be32 (he v) ++ be32 (hf v) ++ be32 (hg v) ++ be32 (hh v).

Definition digest (msg : bytes) : bytes :=
  let p := pad msg in
  chain_bytes (absorb (Nat.div (List.length p) 64) initial_chain p).

End SHA256.

(** ** HMAC ([hmac.new(key, msg, hashlib.sha256)]) *)

Module HMAC.

Definition block_size : nat := 64.

Definition ljust (n : nat) (bs : bytes) : bytes :=
  bs ++ repeat 0 (n - List.length bs).

Definition block_key (key : bytes) : bytes :=
  ljust block_size
    (if Nat.ltb block_size (List.length key) then SHA256.digest key else key).

Definition translate (x : Z) (bs : bytes) : bytes := map (Z.lxor x) bs.

Definition digest (key msg : bytes) : bytes :=
  let k := block_key key in
  SHA256.digest (translate 92 k ++ SHA256.digest (translate 54 k ++ msg)).

End HMAC.

(** [bytes.hex()] as used by [hexdigest()]: two lowercase digits a byte. *)
Definition hex_digit (n : Z) : ascii :=
  match n with
  | 0 => "0" | 1 => "1" | 2 => "2" | 3 => "3" | 4 => "4" | 5 => "5"
  | 6 => "6" | 7 => "7" | 8 => "8" | 9 => "9" | 10 => "a" | 11 => "b"
  | 12 => "c" | 13 => "d" | 14 => "e" | _ => "f"
  end%char.

Definition hex_byte (b : Z) : str :=
  [hex_digit (Z.shiftr b 4); hex_digit (Z.land b 15)].

Definition hex (bs : bytes) : str := flat_map hex_byte bs.

Definition hmac_hexdigest (key msg : bytes) : str := hex (HMAC.digest key msg).

(** ** Builtins used by the token code *)

Definition str_eqb (a b : str) : bool :=
  if list_eq_dec ascii_dec a b then true else false.

(** [s.split(sep)] for a one-character separator: the fields between the
    separators, never an empty list. *)
Fixpoint split (sep : ascii) (s : str) : list str :=
  match s with
  | [] => [[]]
  | c :: r =>
      if Ascii.eqb c sep then [] :: split sep r
      else match split sep r with
           | f :: fs => (c :: f) :: fs
           | [] => [[c]]
           end
  end.

(** [str(n)] for an [int]: decimal digits, a minus sign when negative. *)
Definition digit_char (d : Z) : ascii := chr (48 + d).

Fixpoint digits (fuel : nat) (n : Z) : str :=
  match fuel with
  | O => []
  | S fuel' =>
      if n <? 10 then [digit_char n]
      else digits fuel' (n / 10) ++ [digit_char (n mod 10)]
  end.

Definition str_of_int (n : Z) : str :=
  if n <? 0 then "-"%char :: digits (S (Z.to_nat (Z.log2 (- n)))) (- n)
  else digits (S (Z.to_nat (Z.log2 n))) n.

(** [int(s)] for a [str]: surrounding whitespace is dropped, one sign is
    allowed, then decimal digits with single underscores between digits.
    [None] stands for the [ValueError].  The interpreter's limit on the
    number of digits (4300 by default) is not modelled. *)
Definition is_space (c : ascii) : bool :=
  let n := ord c in
  ((9 <=? n) && (n <=? 13)) || (n =? 32) || (n =? 133) || (n =? 160).

Fixpoint lstrip (s : str) : str :=
  match s with
  | c :: r => if is_space c then lstrip r else s
  | [] => []
  end.

Definition rstrip (s : str) : str := rev (lstrip (rev s)).

Definition digit_value (c : ascii) : option Z :=
  let n := ord c in
  if (48 <=? n) && (n <=? 57) then Some (n - 48) else None.

Fixpoint scan_digits (acc : Z) (after_underscore : bool) (s : str) : option Z :=
  match s with
  | [] => if after_underscore then None else Some acc
  | c :: r =>
      if Ascii.eqb c "_" then
        if after_underscore then None else scan_digits acc true r
      else
        match digit_value c with
        | Some d => scan_digits (10 * acc + d) false r
        | None => None
        end
  end.

Definition parse_unsigned (s : str) : option Z :=
  match s with
  | [] => None
  | c :: _ => if Ascii.eqb c "_" then None else scan_digits 0 false s
  end.

Definition int (s : str) : option Z :=
  match rstrip (lstrip s) with
  | c :: r =>
      if Ascii.eqb c "+" then parse_unsigned r
      else if Ascii.eqb c "-" then option_map Z.opp (parse_unsigned r)
      else parse_unsigned (c :: r)
  | [] => None
  end.

(** Exceptions raised inside the [try] block of [verify_token]. *)
Inductive exn : Type := ValueError | TypeError.

Inductive outcome (A : Type) : Type :=
| Return (a : A)
| Raise (e : exn).
Arguments Return {A} a.
Arguments Raise {A} e.

(** [hmac.compare_digest] on two [str]: a [TypeError] unless both are
    ASCII, their equality otherwise. *)
Definition is_ascii (s : str) : bool := forallb (fun c => ord c <? 128) s.

Definition compare_digest (a b : str) : outcome bool :=
  if is_ascii a && is_ascii b then Return (str_eqb a b) else Raise TypeError.

(** ** Clock and configuration *)

(** An instant, in microseconds since the Unix epoch. *)
Definition datetime := Z.

(** [int(d.timestamp())]: whole seconds, rounded towards zero. *)
Definition timestamp (d : datetime) : Z := Z.quot d 1000000.

(** [d + timedelta(minutes=m)]. *)
Definition add_minutes (d : datetime) (m : Z) : datetime := d + m * 60000000.

Record settings : Type := Settings {
  SECRET_KEY : str;
  TOKEN_EXP_MIN : Z
}.

(** The values used when the environment sets neither variable. *)
Definition default_settings : settings :=
  Settings (lit "dev-secret-key-change") 43200.

(** ** Tokens *)

Section Tokens.

Variable cfg : settings.

Definition sign (payload : str) : str :=
  hmac_hexdigest (encode (SECRET_KEY cfg)) (encode payload).

Definition create_token (now : datetime) (user_id : str) : str :=
  let exp := timestamp (add_minutes now (TOKEN_EXP_MIN cfg)) in
  let payload := user_id ++ [colon] ++ str_of_int exp in
  let sig := sign payload in
  payload ++ [colon] ++ sig.

(** The body of the [try] block. *)
Definition verify_token_try (now : datetime) (token : str) : outcome (option str) :=
  match split colon token with
  | [user_id; exp_s; sig] =>
      let payload := user_id ++ [colon] ++ exp_s in
      let expected := sign payload in
      match compare_digest expected sig with
      | Raise e => Raise e
      | Return false => Return None
      | Return true =>
          match int exp_s with
          | None => Raise ValueError
          | Some exp =>
              if exp <? timestamp now then Return None
              else Return (Some user_id)
          end
      end
  | _ => Raise ValueError
  end.

(** [except Exception: return None]. *)
Definition verify_token (now : datetime) (token : str) : option str :=
  match verify_token_try now token with
  | Return r => r
  | Raise _ => None
  end.

End Tokens.

(** ** The ["save"] collection *)

(** [Dict[str, Any]] as it arrives from JSON. *)
#[local] Set Warnings "-register-all".
Inductive json : Type :=
| JNull
| JBool (b : bool)
| JInt (n : Z)
| JStr (s : str)
| JList (l : list json)
| JDict (d : list (str * json)).

Definition dict := list (str * json).

Definition ObjectId := N.

(** A save document; [I] is the type of its ["_id"], an [ObjectId] in the
    collection and a [str] in what the handlers return. *)
Record save (I : Type) : Type := Save {
  doc_id : I;
  user_id : str;
  game_slug : str;
  data : dict;
  created_at : datetime;
  updated_at : datetime
}.
Arguments Save {I}.
Arguments doc_id {I}.
Arguments user_id {I}.
Arguments game_slug {I}.
Arguments data {I}.
Arguments created_at {I}.
Arguments updated_at {I}.

(** Documents in insertion order, and the next identifier to hand out. *)
Record collection : Type := Collection {
  documents : list (save ObjectId);
  next_id : ObjectId
}.

Definition empty_collection : collection := Collection [] 0%N.

Definition matches (uid slug : str) (d : save ObjectId) : bool :=
  str_eqb (user_id d) uid && str_eqb (game_slug d) slug.

(** [find_one({"user_id": uid, "game_slug": slug})]. *)
Definition find_one (uid slug : str) (c : collection) : option (save ObjectId) :=
  find (matches uid slug) (documents c).

(** [update_one({"_id": id}, {"$set": {"data": d, "updated_at": now}})]. *)
Definition set_fields (d : dict) (now : datetime) (x : save ObjectId) : save ObjectId :=
  Save (doc_id x) (user_id x) (game_slug x) d (created_at x) now.

Fixpoint update_first (id : ObjectId) (d : dict) (now : datetime)
  (docs : list (save ObjectId)) : list (save ObjectId) :=
  match docs with
  | [] => []
  | x :: r =>
      if N.eqb (doc_id x) id then set_fields d now x :: r
      else x :: update_first id d now r
  end.

Definition update_one (id : ObjectId) (d : dict) (now : datetime)
  (c : collection) : collection :=
  Collection (update_first id d now (documents c)) (next_id c).

(** [insert_one(doc)]: the document gets a fresh ["_id"], which is returned. *)
Definition insert_one (uid slug : str) (d : dict) (created updated : datetime)
  (c : collection) : ObjectId * collection :=
  let id := next_id c in
  (id, Collection (documents c ++ [Save id uid slug d created updated])
                  (N.succ id)).

(** [str(oid)]: the twelve bytes of the identifier in hexadecimal. *)
Fixpoint be_bytes (n : nat) (x : Z) : bytes :=
  match n with
  | O => []
  | S n' => Z.land (Z.shiftr x (8 * Z.of_nat n')) 255 :: be_bytes n' x
  end.

Definition str_of_oid (id : ObjectId) : str := hex (be_bytes 12 (Z.of_N id)).

Definition with_str_id (x : save ObjectId) : save str :=
  Save (str_of_oid (doc_id x)) (user_id x) (game_slug x) (data x)
       (created_at x) (updated_at x).

(** ** Request handlers *)

(** What a handler gives back: a value or an [HTTPException]. *)
Inductive result (A : Type) : Type :=
| Ok (a : A)
| HTTPException (status_code : Z) (detail : str).
Arguments Ok {A} a.
Arguments HTTPException {A} status_code detail.

(** The state a handler runs in: the module-level [db] ([None] when the
    database is not configured, otherwise its ["save"] collection) and the
    tokens handed to [verify_token] so far, latest first. *)
Record world : Type := World {
  db : option collection;
  verified : list str
}.

Definition M (A : Type) : Type := world -> result A * world.

Definition ret {A} (a : A) : M A := fun w => (Ok a, w).

Definition raise {A} (status_code : Z) (detail : string) : M A :=
  fun w => (HTTPException status_code (lit detail), w).

Definition bind {A B} (m : M A) (k : A -> M B) : M B :=
  fun w =>
    match m w with
    | (Ok a, w') => k a w'
    | (HTTPException s d, w') => (HTTPException s d, w')
    end.

Notation "x <- m ;; k" := (bind m (fun x => k))
  (at level 61, m at next level, right associativity).

(** [if db is None: raise HTTPException(500, ...)]. *)
Definition require_db : M collection :=
  fun w =>
    match db w with
    | None => raise 500 "Database not configured" w
    | Some c => (Ok c, w)
    end.

Definition put_db (c : collection) : M unit :=
  fun w => (Ok tt, World (Some c) (verified w)).

(** The response bodies of the two save handlers. *)
Inductive save_body : Type :=
| Stored (s : save str)
| Default (slug : str) (d : dict).

(** [str.lower()] on code points below 256. *)
Definition lower_char (c : ascii) : ascii :=
  let n := ord c in
  if ((65 <=? n) && (n <=? 90)) ||
     ((192 <=? n) && (n <=? 222) && negb (n =? 215))
  then chr (n + 32) else c.

Definition lower (s : str) : str := map lower_char s.

Fixpoint startswith (prefix s : str) : bool :=
  match prefix, s with
  | [], _ => true
  | p :: ps, c :: cs => Ascii.eqb p c && startswith ps cs
  | _ :: _, [] => false
  end.

(** [s.split(sep, 1)[1]]: what follows the first separator; [None] is the
    [IndexError] when there is no separator. *)
Fixpoint after_first (sep : ascii) (s : str) : option str :=
  match s with
  | [] => None
  | c :: r => if Ascii.eqb c sep then Some r else after_first sep r
  end.

(** Truth value of an [Optional[str]]. *)
Definition truthy (a : option str) : bool :=
  match a with
  | Some (_ :: _) => true
  | _ => false
  end.

Section Handlers.

Variable cfg : settings.

Definition call_verify_token (now : datetime) (token : str) : M (option str) :=
  fun w => (Ok (verify_token cfg now token), World (db w) (token :: verified w)).

Definition get_current_user_id (now : datetime) (authorization : option str) : M str :=
  match authorization with
  | Some (c :: a) =>
      if negb (startswith (lit "bearer ") (lower (c :: a))) then
        raise 401 "Missing bearer token"
      else
        match after_first " " (c :: a) with
        | None => raise 500 "Internal Server Error"
        | Some token =>
            uid <- call_verify_token now token ;;
            match uid with
            | Some (u :: us) => ret (u :: us)
            | _ => raise 401 "Invalid or expired token"
            end
        end
  | _ => raise 401 "Missing bearer token"
  end.

(** [GET /saves/{game_slug}]; [now] is the clock reading inside
    [verify_token]. *)
Definition get_saves (now : datetime) (slug : str) (authorization : option str)
  : M save_body :=
  c <- require_db ;;
  if truthy authorization then
    uid <- get_current_user_id now authorization ;;
    match find_one uid slug c with
    | Some s => ret (Stored (with_str_id s))
    | None => ret (Default slug [])
    end
  else ret (Default slug []).

(** [POST /saves]; [auth_time] is the clock reading inside [verify_token]
    and [now] the one taken by the handler afterwards. *)
Definition upsert_save (auth_time now : datetime) (slug : str) (d : dict)
  (authorization : option str) : M save_body :=
  c <- require_db ;;
  uid <- get_current_user_id auth_time authorization ;;
  match find_one uid slug c with
  | Some existing =>
      _ <- put_db (update_one (doc_id existing) d now c) ;;
      ret (Stored (with_str_id (set_fields d now existing)))
  | None =>
      let (id, c') := insert_one uid slug d now now c in
      _ <- put_db c' ;;
      ret (Stored (Save (str_of_oid id) uid slug d now now))
  end.

End Handlers.

(** ** Registration and login *)

(** [hash_password]; [salt] is the value of [PWD_SALT]. *)
Definition hash_password (salt password : str) : str :=
  hex (SHA256.digest (encode (salt ++ password))).

(** The salt used when the environment does not set one. *)
Definition default_salt : str := lit "static-salt".

(** A document of the ["user"] collection, as [register] writes it. *)
Record user : Type := User {
  user_oid : ObjectId;
  user_name : str;
  user_email : str;
  password_hash : str;
  user_created_at : datetime;
  user_updated_at : datetime;
  avatar_url : option str
}.

Record user_collection : Type := UserCollection {
  users : list user;
  next_user_id : ObjectId
}.

Definition no_users : user_collection := UserCollection [] 0%N.

(** [find_one({"email": email})]. *)
Definition find_user (email : str) (c : user_collection) : option user :=
  find (fun x => str_eqb (user_email x) email) (users c).

Definition insert_user (name email hash : str) (created updated : datetime)
  (c : user_collection) : ObjectId * user_collection :=
  let id := next_user_id c in
  (id, UserCollection (users c ++ [User id name email hash created updated None])
                      (N.succ id)).

(** The request and response models of the two routes.  A request is
    taken as the framework hands it over, its address already validated. *)
Record AuthRequest : Type := MkAuthRequest {
  req_email : str;
  req_password : str;
  req_name : option str
}.

Record user_out : Type := UserOut {
  out_id : str;
  out_name : str;
  out_email : str;
  out_avatar_url : option str
}.

Record AuthResponse : Type := MkAuthResponse {
  resp_token : str;
  resp_user : user_out
}.

(** [payload.name or payload.email.split("@")[0]]. *)
Definition display_name (payload : AuthRequest) : str :=
  match req_name payload with
  | Some (c :: r) => c :: r
  | _ => hd [] (split "@" (req_email payload))
  end.

Section AuthRoutes.

Variable cfg : settings.
Variable salt : str.

(** [POST /auth/register].  [created] and [updated] are the two clock
    readings stored in the document, [issued] the one of [create_token]. *)
Definition register (created updated issued : datetime) (payload : AuthRequest)
  (db : option user_collection) : result AuthResponse * option user_collection :=
  match db with
  | None => (HTTPException 500 (lit "Database not configured"), db)
  | Some c =>
      let email := lower (req_email payload) in
      match find_user email c with
      | Some _ => (HTTPException 400 (lit "Email already registered"), db)
      | None =>
          let name := display_name payload in
          let (id, c') :=
            insert_user name email (hash_password salt (req_password payload))
                        created updated c in
          let token := create_token cfg issued (str_of_oid id) in
          (Ok (MkAuthResponse token (UserOut (str_of_oid id) name email None)),
           Some c')
      end
  end.

(** [POST /auth/login]. *)
Definition login (issued : datetime) (payload : AuthRequest)
  (db : option user_collection) : result AuthResponse * option user_collection :=
  match db with
  | None => (HTTPException 500 (lit "Database not configured"), db)
  | Some c =>
      match find_user (lower (req_email payload)) c with
      | Some u =>
          if negb (str_eqb (password_hash u)
                     (hash_password salt (req_password payload)))
          then (HTTPException 401 (lit "Invalid credentials"), db)
          else
            let token := create_token cfg issued (str_of_oid (user_oid u)) in
            (Ok (MkAuthResponse token
                   (UserOut (str_of_oid (user_oid u)) (user_name u)
                            (user_email u) (avatar_url u))),
             db)
      | None => (HTTPException 401 (lit "Invalid credentials"), db)
      end
  end.

End AuthRoutes.

(** ** Vocabulary of the statements *)

(** [sep.join(fields)]. *)
Fixpoint join (sep : ascii) (fields : list str) : str :=
  match fields with
  | [] => []
  | [f] => f
  | f :: fs => f ++ sep :: join sep fs
  end.

(** The characters [bytes.hex()] produces. *)
Definition lower_hex (c : ascii) : Prop := In c (lit "0123456789abcdef").

(** The scenario of the specification: the default key, a lifetime of
    one minute, subject ["abc123"], issued 1000 seconds after the epoch. *)
Definition scenario_settings : settings :=
  Settings (lit "dev-secret-key-change") 1.

Definition scenario_signature : str :=
  lit "c2b1f3e2252a1000a5722d103fefe64887d9309f99054f391b4eba3ce266966e".

Definition scenario_token : str :=
  lit "abc123:1060:" ++ scenario_signature.

Definition seconds (n : Z) : datetime := n * 1000000.

(** The authorization value carrying a token. *)
Definition bearer (token : str) : option str := Some (lit "Bearer " ++ token).

(** The save scenario of the specification: two users, one game, the
    payloads [{"level": 3}] and [{"level": 5}]. *)
Definition token_for (u : str) : str :=
  create_token scenario_settings (seconds 1000) u.

Definition tower_defence : str := lit "tower-defence".

Definition level (n : Z) : dict := [(lit "level", JInt n)].

Definition fresh_world : world := World (Some empty_collection) [].

(** The collection once user ["u1"] has saved level 3 at second 1100. *)
Definition u1_level_3 : save ObjectId :=
  Save 0%N (lit "u1") tower_defence (level 3) (seconds 1100) (seconds 1100).

Definition one_save : collection := Collection [u1_level_3] 1%N.

(** A non-empty string of decimal digits. *)
Definition decimal (s : str) : Prop :=
  s <> [] /\ Forall (fun c => exists d, 0 <= d <= 9 /\ c = digit_char d) s.

(** A string without the token delimiter. *)
Definition delimiter_free (s : str) : Prop := ~ In colon s.

(** [s] with the character at index [i] replaced by [c]. *)
Fixpoint replace_nth (i : nat) (c : ascii) (s : str) : str :=
  match s, i with
  | [], _ => []
  | _ :: r, O => c :: r
  | x :: r, S i' => x :: replace_nth i' c r
  end.

(** Identifiers in the collection are unique and below the next one, as
    the unique index on ["_id"] and the identifier generator ensure. *)
Definition wf (c : collection) : Prop :=
  NoDup (map doc_id (documents c)) /\
  Forall (fun x => (doc_id x < next_id c)%N) (documents c).

(** The authorization value [a] is accepted at time [now] as user [u]. *)
Definition authenticates (cfg : settings) (now : datetime) (a : option str)
  (u : str) : Prop :=
  fst (get_current_user_id cfg now a (World None [])) = Ok u.

(** [set_fields] applied to the document with identifier [id] only. *)
Definition amend (id : ObjectId) (d : dict) (now : datetime) (x : save ObjectId)
  : save ObjectId :=
  if N.eqb (doc_id x) id then set_fields d now x else x.

(** The collection after a write of [d] by user [u] to game [g] at [now]:
    the two branches of [upsert_save]. *)
Definition upserted (u g : str) (d : dict) (now : datetime) (c : collection)
  : collection :=
  match find_one u g c with
  | Some existing => update_one (doc_id existing) d now c
  | None => snd (insert_one u g d now now c)
  end.

(** A [POST /saves] request and the clock readings it sees. *)
Record upsert_request : Type := UpsertRequest {
  rq_auth_time : datetime;
  rq_now : datetime;
  rq_slug : str;
  rq_data : dict;
  rq_authorization : option str
}.

Definition serve (cfg : settings) (w : world) (r : upsert_request) : world :=
  snd (upsert_save cfg (rq_auth_time r) (rq_now r) (rq_slug r) (rq_data r)
         (rq_authorization r) w).

Definition serve_all (cfg : settings) (rs : list upsert_request) (w : world)
  : world :=
  fold_left (serve cfg) rs w.

(** Request [r] is a write by user [u] to the save of game [g]. *)
Definition writes_key (cfg : settings) (u g : str) (r : upsert_request) : Prop :=
  authenticates cfg (rq_auth_time r) (rq_authorization r) u /\ rq_slug r = g.

(** Each (user, game) pair has at most one document. *)
Definition keys_unique (c : collection) : Prop :=
  NoDup (map (fun x => (user_id x, game_slug x)) (documents c)).

(** No document was updated before it was created or after instant [T]. *)
Definition chronological (T : datetime) (c : collection) : Prop :=
  Forall (fun x => created_at x <= updated_at x <= T) (documents c).

(** The handlers' clock readings of the requests do not go back from [T]. *)
Fixpoint clock_monotone (T : datetime) (rs : list upsert_request) : Prop :=
  match rs with
  | [] => True
  | r :: rs' => T <= rq_now r /\ clock_monotone (rq_now r) rs'
  end.

Definition last_now (T : datetime) (rs : list upsert_request) : datetime :=
  fold_left (fun _ r => rq_now r) rs T.

(** Identifiers of the users are unique and below the next one, stored
    e-mail addresses are unique and in lower case. *)
Definition users_wf (c : user_collection) : Prop :=
  NoDup (map user_oid (users c)) /\
  Forall (fun x => (user_oid x < next_user_id c)%N) (users c) /\
  NoDup (map user_email (users c)) /\
  Forall (fun x => lower (user_email x) = user_email x) (users c).

(** A registration request and the clock readings it sees. *)
Record register_request : Type := RegisterRequest {
  rr_created : datetime;
  rr_updated : datetime;
  rr_issued : datetime;
  rr_payload : AuthRequest
}.

Definition enrol (cfg : settings) (salt : str) (db : option user_collection)
  (r : register_request) : option user_collection :=
  snd (register cfg salt (rr_created r) (rr_updated r) (rr_issued r)
         (rr_payload r) db).

Definition enrol_all (cfg : settings) (salt : str) (rs : list register_request)
  (db : option user_collection) : option user_collection :=
  fold_left (enrol cfg salt) rs db.

(** Requests of the save scenario: user ["u1"] saves level 5 at second
    1200, user ["u2"] saves level 1 at second 1300, and a request with an
    authorization value that is no token. *)
Definition u1_saves_level_5 : upsert_request :=
  UpsertRequest (seconds 1059) (seconds 1200) tower_defence (level 5)
    (bearer (token_for (lit "u1"))).

Definition u2_saves_level_1 : upsert_request :=
  UpsertRequest (seconds 1059) (seconds 1300) tower_defence (level 1)
    (bearer (token_for (lit "u2"))).

Definition no_token : option str := Some (lit "Bearer nonsense").

(** The registration scenario: Alice registers without a name, then uses
    her address in lower case. *)
Definition alice : AuthRequest :=
  MkAuthRequest (lit "Alice@example.com") (lit "secret") None.

Definition alice_again : AuthRequest :=
  MkAuthRequest (lit "alice@example.com") (lit "secret") (Some (lit "Alice")).

Definition alice_registers : register_request :=
  RegisterRequest (seconds 1000) (seconds 1000) (seconds 1000) alice.

Definition alice_registered : result AuthResponse * option user_collection :=
  register scenario_settings default_salt (seconds 1000) (seconds 1000)
    (seconds 1000) alice (Some no_users).

Definition alice_response : AuthResponse :=
  MkAuthResponse
    (create_token scenario_settings (seconds 1000) (str_of_oid 0%N))
    (UserOut (str_of_oid 0%N) (lit "Alice") (lit "alice@example.com") None).

(** * Properties *)

(** ** Splitting and joining *)

Lemma split_not_nil (sep : ascii) (s : str) : split sep s <> [].
Proof.
  destruct s as [|c r]; simpl; [discriminate|].
  destruct (Ascii.eqb c sep); [discriminate|].
  destruct (split sep r); discriminate.
Qed.

Lemma split_no_sep (sep : ascii) (s : str) :
  ~ In sep s -> split sep s = [s].
Proof.
  induction s as [|c r IH]; simpl; intros H; [reflexivity|].
  destruct (Ascii.eqb c sep) eqn:E.
  - apply Ascii.eqb_eq in E. exfalso. apply H. now left.
  - rewrite IH; [reflexivity|]. intros Hin. apply H. now right.
Qed.

Lemma split_app (sep : ascii) (a r : str) :
  ~ In sep a -> split sep (a ++ sep :: r) = a :: split sep r.
Proof.
  induction a as [|c a IH]; simpl; intros H.
  - now rewrite Ascii.eqb_refl.
  - destruct (Ascii.eqb c sep) eqn:E.
    + apply Ascii.eqb_eq in E. exfalso. apply H. now left.
    + rewrite IH; [reflexivity|]. intros Hin. apply H. now right.
Qed.

Lemma split_three (sep : ascii) (a b c : str) :
  ~ In sep a -> ~ In sep b -> ~ In sep c ->
  split sep (a ++ [sep] ++ b ++ [sep] ++ c) = [a; b; c].
Proof.
  intros Ha Hb Hc. simpl.
  rewrite (split_app sep a) by assumption.
  rewrite (split_app sep b) by assumption.
  now rewrite split_no_sep.
Qed.

Lemma split_fields_no_sep (sep : ascii) (s : str) :
  Forall (fun f => ~ In sep f) (split sep s).
Proof.
  induction s as [|c r IH]; simpl.
  - constructor; [intros []|constructor].
  - destruct (Ascii.eqb c sep) eqn:E.
    + constructor; [intros []|exact IH].
    + destruct (split sep r) as [|f fs].
      * constructor; [|constructor]. intros [H|[]]. subst.
        now rewrite Ascii.eqb_refl in E.
      * inversion IH as [|? ? Hf Hfs]; subst. constructor; [|exact Hfs].
        intros [H|H]; [|now apply Hf]. subst.
        now rewrite Ascii.eqb_refl in E.
Qed.

Lemma join_split (sep : ascii) (s : str) : join sep (split sep s) = s.
Proof.
  induction s as [|c r IH]; [reflexivity|]. simpl.
  destruct (Ascii.eqb c sep) eqn:E.
  - apply Ascii.eqb_eq in E. subst c.
    pose proof (split_not_nil sep r) as Hn.
    simpl. destruct (split sep r) as [|f fs]; [contradiction|].
    simpl in *. now rewrite IH.
  - pose proof (split_not_nil sep r) as Hn.
    destruct (split sep r) as [|f fs]; [contradiction|].
    destruct fs as [|g gs]; simpl in *; now rewrite <- IH.
Qed.

Lemma length_split (sep : ascii) (s : str) :
  List.length (split sep s) = S (count_occ ascii_dec s sep).
Proof.
  induction s as [|c r IH]; [reflexivity|]. simpl.
  destruct (ascii_dec c sep) as [->|Hne].
  - rewrite Ascii.eqb_refl. simpl. now rewrite IH.
  - destruct (Ascii.eqb c sep) eqn:E.
    + apply Ascii.eqb_eq in E. contradiction.
    + pose proof (split_not_nil sep r) as Hn.
      destruct (split sep r) as [|f fs]; [contradiction|].
      simpl in *. exact IH.
Qed.

(** ** SHA-256 constants and test vectors *)

Example round_constants_ends :
  List.length SHA256.round_constants = 64%nat /\
  hd 0 SHA256.round_constants = 0x428a2f98 /\
  last SHA256.round_constants 0 = 0xc67178f2.
Proof. repeat split. Qed.

Example initial_chain_ends :
  SHA256.ha SHA256.initial_chain = 0x6a09e667 /\
  SHA256.hh SHA256.initial_chain = 0x5be0cd19.
Proof. split; reflexivity. Qed.

Example sha256_abc :
  hex (SHA256.digest (encode (lit "abc")))
  = lit "ba7816bf8f01cfea414140de5dae2223b00361a396177a9cb410ff61f20015ad".
Proof. vm_compute. reflexivity. Qed.

Example hmac_sha256_rfc4231_case2 :
  hmac_hexdigest (encode (lit "Jefe")) (encode (lit "what do ya want for nothing?"))
  = lit "5bdcc146bf60754e6a042426089575c75a003f089d2739839dec58b964ec3843".
Proof. vm_compute. reflexivity. Qed.

(** ** The hexadecimal digest *)

Lemma hex_digit_lower (n : Z) : lower_hex (hex_digit n).
Proof.
  unfold lower_hex, hex_digit.
  destruct n as [|p|p]; [vm_compute; tauto| |vm_compute; tauto].
  destruct p as [[[[p|p|]|[p|p|]|]|[[p|p|]|[p|p|]|]|]
                |[[[p|p|]|[p|p|]|]|[[p|p|]|[p|p|]|]|]|];
    vm_compute; tauto.
Qed.

Lemma lower_hex_facts (c : ascii) :
  lower_hex c -> c <> colon /\ (ord c <? 128) = true.
Proof.
  unfold lower_hex. simpl.
  intros H.
  repeat (destruct H as [H|H]; [subst c; split; [discriminate|reflexivity]|]).
  destruct H.
Qed.

Lemma hex_lower (bs : bytes) : Forall lower_hex (hex bs).
Proof.
  induction bs as [|b bs IH]; simpl; [constructor|].
  constructor; [apply hex_digit_lower|].
  constructor; [apply hex_digit_lower|exact IH].
Qed.

Lemma length_hex (bs : bytes) : List.length (hex bs) = (2 * List.length bs)%nat.
Proof.
  induction bs as [|b bs IH]; simpl; [reflexivity|]. rewrite IH. lia.
Qed.

Lemma length_chain_bytes (v : SHA256.chain) :
  List.length (SHA256.chain_bytes v) = 32%nat.
Proof. reflexivity. Qed.

Lemma be32_bytes (w : Z) : Forall (fun b => 0 <= b < 256) (SHA256.be32 w).
Proof.
  assert (B : forall x, 0 <= Z.land x 255 < 256).
  { intros x. change 255 with (Z.ones 8). rewrite Z.land_ones by lia.
    apply Z.mod_pos_bound. reflexivity. }
  unfold SHA256.be32. repeat constructor; apply B.
Qed.

Lemma chain_bytes_bytes (v : SHA256.chain) :
  Forall (fun b => 0 <= b < 256) (SHA256.chain_bytes v).
Proof.
  unfold SHA256.chain_bytes.
  repeat (apply Forall_app; split); apply be32_bytes.
Qed.

Lemma length_sha256_digest (msg : bytes) : List.length (SHA256.digest msg) = 32%nat.
Proof. unfold SHA256.digest. cbv zeta. apply length_chain_bytes. Qed.

Lemma sha256_digest_bytes (msg : bytes) :
  Forall (fun b => 0 <= b < 256) (SHA256.digest msg).
Proof. unfold SHA256.digest. cbv zeta. apply chain_bytes_bytes. Qed.

Lemma length_hmac_digest (key msg : bytes) : List.length (HMAC.digest key msg) = 32%nat.
Proof. unfold HMAC.digest. cbv zeta. apply length_sha256_digest. Qed.

Lemma hmac_digest_bytes (key msg : bytes) :
  Forall (fun b => 0 <= b < 256) (HMAC.digest key msg).
Proof. unfold HMAC.digest. cbv zeta. apply sha256_digest_bytes. Qed.

Lemma length_hmac_hexdigest (key msg : bytes) :
  List.length (hmac_hexdigest key msg) = 64%nat.
Proof. unfold hmac_hexdigest. now rewrite length_hex, length_hmac_digest. Qed.

Lemma hex_no_colon (bs : bytes) : ~ In colon (hex bs).
Proof.
  intros H. pose proof (hex_lower bs) as L.
  rewrite Forall_forall in L. apply L in H.
  apply lower_hex_facts in H. now destruct H.
Qed.

Lemma hex_is_ascii (bs : bytes) : is_ascii (hex bs) = true.
Proof.
  unfold is_ascii. apply forallb_forall. intros c H.
  pose proof (hex_lower bs) as L. rewrite Forall_forall in L.
  now apply lower_hex_facts, L.
Qed.

(** ** Decimal strings *)

Lemma digit_char_facts (d : Z) :
  0 <= d <= 9 ->
  digit_value (digit_char d) = Some d /\
  is_space (digit_char d) = false /\
  Ascii.eqb (digit_char d) "_" = false /\
  Ascii.eqb (digit_char d) "+" = false /\
  Ascii.eqb (digit_char d) "-" = false /\
  digit_char d <> colon.
Proof.
  intros H.
  assert (E : d = 0 \/ d = 1 \/ d = 2 \/ d = 3 \/ d = 4 \/ d = 5 \/
              d = 6 \/ d = 7 \/ d = 8 \/ d = 9) by lia.
  repeat (destruct E as [E|E]; [subst d; repeat split; discriminate|]).
  subst d; repeat split; discriminate.
Qed.

Lemma scan_digits_snoc (s : str) :
  forall acc b v d,
    scan_digits acc b s = Some v -> 0 <= d <= 9 ->
    scan_digits acc b (s ++ [digit_char d]) = Some (10 * v + d).
Proof.
  induction s as [|c r IH]; intros acc b v d Hs Hd; simpl in *.
  - destruct b; [discriminate|]. injection Hs as <-.
    destruct (digit_char_facts d Hd) as (Hv & _ & Hu & _).
    now rewrite Hu, Hv.
  - destruct (Ascii.eqb c "_").
    + destruct b; [discriminate|]. now apply IH.
    + destruct (digit_value c); [|discriminate]. now apply IH.
Qed.

Lemma digits_spec (fuel : nat) :
  forall n, 0 <= n < 2 ^ Z.of_nat (S fuel) ->
    decimal (digits (S fuel) n) /\
    scan_digits 0 false (digits (S fuel) n) = Some n.
Proof.
  induction fuel as [|fuel IH]; intros n Hn.
  - assert (n < 10) by (change (2 ^ Z.of_nat 1) with 2 in Hn; lia).
    simpl. destruct (Z.ltb_spec n 10); [|lia].
    destruct (digit_char_facts n ltac:(lia)) as (Hv & _ & Hu & _).
    split.
    + split; [discriminate|]. constructor; [|constructor].
      exists n. split; [lia|reflexivity].
    + simpl. rewrite Hu, Hv. f_equal; lia.
  - change (digits (S (S fuel)) n)
      with (if n <? 10 then [digit_char n]
            else digits (S fuel) (n / 10) ++ [digit_char (n mod 10)]).
    destruct (Z.ltb_spec n 10) as [Hlt|Hge].
    + destruct (digit_char_facts n ltac:(lia)) as (Hv & _ & Hu & _).
      split.
      * split; [discriminate|]. constructor; [|constructor].
        exists n. split; [lia|reflexivity].
      * simpl. rewrite Hu, Hv. f_equal; lia.
    + assert (Hq : 0 <= n / 10 < 2 ^ Z.of_nat (S fuel)).
      { split; [apply Z.div_pos; lia|].
        apply Z.div_lt_upper_bound; [lia|].
        rewrite (Nat2Z.inj_succ (S fuel)), Z.pow_succ_r in Hn by lia. lia. }
      destruct (IH _ Hq) as [[Hne Hall] Hscan].
      assert (Hm : 0 <= n mod 10 <= 9) by (pose proof (Z.mod_pos_bound n 10); lia).
      split.
      * split.
        -- intros E. apply app_eq_nil in E. destruct E as [_ E]. discriminate.
        -- apply Forall_app. split; [exact Hall|].
           constructor; [|constructor]. exists (n mod 10). now split.
      * rewrite (scan_digits_snoc _ _ _ _ _ Hscan Hm).
        f_equal. pose proof (Z.div_mod n 10). lia.
Qed.

Lemma log2_fuel (n : Z) : 0 <= n -> n < 2 ^ Z.of_nat (S (Z.to_nat (Z.log2 n))).
Proof.
  intros H. rewrite Nat2Z.inj_succ, Z2Nat.id by apply Z.log2_nonneg.
  destruct (Z.eq_dec n 0) as [->|Hz]; [reflexivity|].
  apply Z.log2_spec. lia.
Qed.

Lemma lstrip_id (s : str) :
  match s with c :: _ => is_space c = false | [] => True end -> lstrip s = s.
Proof. destruct s as [|c r]; simpl; [reflexivity|]. now intros ->. Qed.

Lemma strip_no_space (s : str) :
  Forall (fun c => is_space c = false) s -> rstrip (lstrip s) = s.
Proof.
  intros H. rewrite (lstrip_id s).
  - unfold rstrip. rewrite lstrip_id; [apply rev_involutive|].
    destruct (rev s) as [|c r] eqn:E; [exact I|].
    rewrite Forall_forall in H. apply H. apply in_rev. rewrite E. now left.
  - destruct H; [exact I|assumption].
Qed.

Lemma decimal_chars (s : str) :
  decimal s ->
  Forall (fun c => is_space c = false) s /\ ~ In colon s /\
  exists c r, s = c :: r /\ Ascii.eqb c "_" = false /\
              Ascii.eqb c "+" = false /\ Ascii.eqb c "-" = false.
Proof.
  intros [Hne Hall]. repeat split.
  - eapply Forall_impl; [|exact Hall]. intros c (d & Hd & ->).
    now apply digit_char_facts.
  - intros Hin. rewrite Forall_forall in Hall.
    destruct (Hall _ Hin) as (d & Hd & E).
    destruct (digit_char_facts d Hd) as (_ & _ & _ & _ & _ & Hc). now apply Hc.
  - destruct s as [|c r]; [contradiction|]. exists c, r.
    inversion Hall as [|? ? (d & Hd & ->) _]; subst.
    destruct (digit_char_facts d Hd) as (_ & _ & Hu & Hp & Hm & _). auto.
Qed.

Lemma int_decimal (s : str) (n : Z) :
  decimal s -> scan_digits 0 false s = Some n -> int s = Some n.
Proof.
  intros Hd Hs. destruct (decimal_chars s Hd) as (Hsp & _ & c & r & -> & Hu & Hp & Hm).
  unfold int. rewrite strip_no_space by assumption.
  rewrite Hp, Hm. unfold parse_unsigned. now rewrite Hu.
Qed.

Lemma int_str_of_int (n : Z) : int (str_of_int n) = Some n.
Proof.
  unfold str_of_int. destruct (Z.ltb_spec n 0) as [Hneg|Hpos].
  - destruct (digits_spec _ _ (conj (ltac:(lia) : 0 <= - n) (log2_fuel (- n) ltac:(lia))))
      as [Hd Hs].
    destruct (decimal_chars _ Hd) as (Hsp & _ & c & r & E & Hu & _ & _).
    unfold int. rewrite strip_no_space by (constructor; [reflexivity|assumption]).
    change (Ascii.eqb "-" "+") with false. change (Ascii.eqb "-" "-") with true.
    cbv iota. unfold parse_unsigned. rewrite E in *. rewrite Hu, Hs.
    simpl. f_equal. lia.
  - destruct (digits_spec _ _ (conj Hpos (log2_fuel n Hpos))) as [Hd Hs].
    now apply int_decimal.
Qed.

Lemma str_of_int_no_colon (n : Z) : ~ In colon (str_of_int n).
Proof.
  unfold str_of_int. destruct (Z.ltb_spec n 0) as [Hneg|Hpos].
  - destruct (digits_spec _ _ (conj (ltac:(lia) : 0 <= - n) (log2_fuel (- n) ltac:(lia))))
      as [Hd _].
    destruct (decimal_chars _ Hd) as (_ & Hc & _).
    intros [H|H]; [discriminate|contradiction].
  - destruct (digits_spec _ _ (conj Hpos (log2_fuel n Hpos))) as [Hd _].
    now destruct (decimal_chars _ Hd) as (_ & Hc & _).
Qed.

(** ** Tokens *)

Lemma delimiter_free_check (s : str) :
  existsb (Ascii.eqb colon) s = false -> delimiter_free s.
Proof.
  intros H Hin.
  assert (E : existsb (Ascii.eqb colon) s = true).
  { apply existsb_exists. exists colon. split; [exact Hin|apply Ascii.eqb_refl]. }
  congruence.
Qed.

Lemma str_eqb_eq (a b : str) : str_eqb a b = true <-> a = b.
Proof.
  unfold str_eqb. destruct (list_eq_dec ascii_dec a b); split; congruence.
Qed.

Lemma compare_digest_true (a b : str) :
  compare_digest a b = Return true <-> is_ascii a = true /\ is_ascii b = true /\ a = b.
Proof.
  unfold compare_digest.
  destruct (is_ascii a), (is_ascii b); simpl; split;
    try (intros H; discriminate H); try (intros (H & _); discriminate H);
    try (intros (_ & H & _); discriminate H).
  - intros H. injection H as H. apply str_eqb_eq in H. auto.
  - intros (_ & _ & H). f_equal. now apply str_eqb_eq.
Qed.

Section TokenProperties.

Variable cfg : settings.

Lemma sign_lower_hex (p : str) : Forall lower_hex (sign cfg p).
Proof. apply hex_lower. Qed.

Lemma sign_is_ascii (p : str) : is_ascii (sign cfg p) = true.
Proof. apply hex_is_ascii. Qed.

Lemma sign_delimiter_free (p : str) : delimiter_free (sign cfg p).
Proof. apply hex_no_colon. Qed.

Lemma length_sign (p : str) : List.length (sign cfg p) = 64%nat.
Proof. apply length_hmac_hexdigest. Qed.

(** What [verify_token] computes once the token has three fields. *)
Lemma verify_token_fields (now : datetime) (token u e s : str) :
  split colon token = [u; e; s] ->
  verify_token cfg now token =
    match compare_digest (sign cfg (u ++ [colon] ++ e)) s with
    | Return true =>
        match int e with
        | Some x => if x <? timestamp now then None else Some u
        | None => None
        end
    | _ => None
    end.
Proof.
  intros H. unfold verify_token, verify_token_try. rewrite H.
  destruct (compare_digest _ s) as [[|]|]; try reflexivity.
  destruct (int e) as [x|]; [|reflexivity].
  now destruct (x <? timestamp now).
Qed.

Lemma verify_token_arity (now : datetime) (token : str) :
  List.length (split colon token) <> 3%nat -> verify_token cfg now token = None.
Proof.
  intros H. unfold verify_token, verify_token_try.
  destruct (split colon token) as [|a [|b [|c [|d l]]]]; try reflexivity.
  now contradiction H.
Qed.

(** A token is accepted exactly when it has three fields, the third is
    the signature of the first two, and the expiry parses to a second
    that is not before the current one. *)
Lemma verify_token_some (now : datetime) (token u : str) :
  verify_token cfg now token = Some u <->
  exists e s x,
    split colon token = [u; e; s] /\ s = sign cfg (u ++ [colon] ++ e) /\
    int e = Some x /\ timestamp now <= x.
Proof.
  split.
  - intros H.
    destruct (Nat.eq_dec (List.length (split colon token)) 3) as [L|L];
      [|rewrite verify_token_arity in H by assumption; discriminate].
    destruct (split colon token) as [|a [|e [|s [|d l]]]] eqn:E; try discriminate.
    rewrite (verify_token_fields now token a e s E) in H.
    destruct (compare_digest _ s) as [[|]|] eqn:C; try discriminate.
    apply compare_digest_true in C. destruct C as (_ & _ & C).
    destruct (int e) as [x|] eqn:I; [|discriminate].
    destruct (Z.ltb_spec x (timestamp now)); [discriminate|].
    injection H as ->. exists e, s, x. auto.
  - intros (e & s & x & E & -> & I & T).
    rewrite (verify_token_fields now token u e _ E).
    assert (C : compare_digest (sign cfg (u ++ [colon] ++ e))
                  (sign cfg (u ++ [colon] ++ e)) = Return true).
    { apply compare_digest_true. repeat split; apply sign_is_ascii. }
    rewrite C, I. destruct (Z.ltb_spec x (timestamp now)); [lia|reflexivity].
Qed.

Lemma create_token_split (now : datetime) (u : str) :
  delimiter_free u ->
  let exp := timestamp (add_minutes now (TOKEN_EXP_MIN cfg)) in
  split colon (create_token cfg now u) =
    [u; str_of_int exp; sign cfg (u ++ [colon] ++ str_of_int exp)].
Proof.
  intros Hu exp. unfold create_token. fold exp.
  rewrite <- app_assoc. rewrite <- (app_assoc [colon]).
  apply split_three; [exact Hu|apply str_of_int_no_colon|apply sign_delimiter_free].
Qed.

(** The issued token passes every check of [verify_token] as long as the
    lifetime is not negative. *)
Lemma verify_token_issued (now : datetime) (u : str) :
  delimiter_free u -> 0 <= TOKEN_EXP_MIN cfg ->
  verify_token cfg now (create_token cfg now u) = Some u.
Proof.
  intros Hu Httl. apply verify_token_some.
  exists (str_of_int (timestamp (add_minutes now (TOKEN_EXP_MIN cfg)))).
  eexists. eexists. split; [now apply create_token_split|].
  split; [reflexivity|]. split; [apply int_str_of_int|].
  unfold timestamp, add_minutes. apply Z.quot_le_mono; lia.
Qed.

(** C1. Round trip: a token issued for a delimiter-free identity with a
    positive lifetime is accepted, as that identity, when it is verified
    at the instant of issuance under the same settings. *)
Theorem verify_create_token (now : datetime) (u : str) :
  delimiter_free u -> 0 < TOKEN_EXP_MIN cfg ->
  verify_token cfg now (create_token cfg now u) = Some u.
Proof.
  intros Hu Httl. apply verify_token_issued; [exact Hu|lia].
Qed.

(** C6. Wire format: the issued token is the subject, the decimal expiry
    second (the issuing instant plus the lifetime, in whole seconds since
    the epoch) and the signature, separated by colons; the signature is
    the 64 lowercase hexadecimal digits of the 32-byte HMAC-SHA256 of
    ["subject:expiry"] under the secret key, and the token splits back
    into exactly these three fields. *)
Theorem create_token_wire_format (now : datetime) (u : str) :
  delimiter_free u ->
  let exp := timestamp (now + TOKEN_EXP_MIN cfg * 60 * 1000000) in
  let mac := HMAC.digest (encode (SECRET_KEY cfg))
               (encode (u ++ lit ":" ++ str_of_int exp)) in
  create_token cfg now u = u ++ lit ":" ++ str_of_int exp ++ lit ":" ++ hex mac /\
  split colon (create_token cfg now u) = [u; str_of_int exp; hex mac] /\
  int (str_of_int exp) = Some exp /\
  List.length mac = 32%nat /\ Forall (fun b => 0 <= b < 256) mac /\
  List.length (hex mac) = 64%nat /\ Forall lower_hex (hex mac).
Proof.
  intros Hu. cbv zeta.
  replace (now + TOKEN_EXP_MIN cfg * 60 * 1000000)
    with (add_minutes now (TOKEN_EXP_MIN cfg)) by (unfold add_minutes; lia).
  split; [|split; [|split; [|split; [|split; [|split]]]]].
  - unfold create_token. rewrite <- app_assoc.
    rewrite <- (app_assoc [colon]). reflexivity.
  - exact (create_token_split now u Hu).
  - apply int_str_of_int.
  - apply length_hmac_digest.
  - apply hmac_digest_bytes.
  - apply length_hmac_hexdigest.
  - apply hex_lower.
Qed.

(** C2, as amended.  A three-field token whose expiry parses is accepted
    exactly when its signature is the expected one and its expiry second
    is not before the current second; it is rejected whenever the expiry
    second is strictly before the current one. *)
Theorem verify_token_expiry (now : datetime) (token u e s : str) (x : Z) :
  split colon token = [u; e; s] -> int e = Some x ->
  (verify_token cfg now token = Some u <->
     s = sign cfg (u ++ [colon] ++ e) /\ timestamp now <= x) /\
  (x < timestamp now -> verify_token cfg now token = None).
Proof.
  intros E I. split; [split|].
  - intros H. apply verify_token_some in H.
    destruct H as (e' & s' & x' & E' & S' & I' & T).
    rewrite E in E'. injection E' as Ee Es. subst e' s'.
    rewrite I in I'. injection I' as <-. auto.
  - intros [-> T]. apply verify_token_some.
    exists e, (sign cfg (u ++ [colon] ++ e)), x. auto.
  - intros T. destruct (verify_token cfg now token) as [v|] eqn:V; [|reflexivity].
    apply verify_token_some in V.
    destruct V as (e' & s' & x' & E' & _ & I' & T').
    rewrite E in E'. injection E' as Eu Ee Es. subst e' s'.
    rewrite I in I'. injection I' as <-. lia.
Qed.

(** C4. [verify_token] is total: it gives an identity or [None]; every
    exception raised in its body ends as [None]; and a token without
    exactly three fields, one whose expiry does not parse, one with a
    wrong signature and an expired one all give the same [None]. *)
Theorem verify_token_total (now : datetime) (token : str) :
  (verify_token cfg now token = None \/
   exists u, verify_token cfg now token = Some u) /\
  (forall ex, verify_token_try cfg now token = Raise ex ->
     verify_token cfg now token = None) /\
  (List.length (split colon token) <> 3%nat ->
     verify_token cfg now token = None) /\
  (forall u e s, split colon token = [u; e; s] ->
     (int e = None -> verify_token cfg now token = None) /\
     (s <> sign cfg (u ++ [colon] ++ e) -> verify_token cfg now token = None) /\
     (forall x, int e = Some x -> x < timestamp now ->
        verify_token cfg now token = None)).
Proof.
  split; [|split; [|split]].
  - destruct (verify_token cfg now token) as [u|]; [right; now exists u|now left].
  - intros ex H. unfold verify_token. now rewrite H.
  - apply verify_token_arity.
  - intros u e s E.
    assert (N : forall P : Prop,
               (forall e' s' x', split colon token = [u; e'; s'] ->
                  s' = sign cfg (u ++ [colon] ++ e') ->
                  int e' = Some x' -> timestamp now <= x' -> P -> False) ->
               P -> verify_token cfg now token = None).
    { intros P HP p. destruct (verify_token cfg now token) as [v|] eqn:V; [|reflexivity].
      assert (V' := V).
      rewrite (verify_token_fields now token u e s E) in V'.
      assert (v = u) as ->.
      { destruct (compare_digest _ s) as [[|]|]; try discriminate.
        destruct (int e); [|discriminate].
        destruct (_ <? _); congruence. }
      apply verify_token_some in V.
      destruct V as (e' & s' & x' & E' & S' & I' & T').
      exfalso. exact (HP e' s' x' E' S' I' T' p). }
    repeat split.
    + apply N. intros e' s' x' E' _ I' _ H.
      rewrite E in E'. injection E' as Ee Es. subst e' s'. congruence.
    + apply N. intros e' s' x' E' S' _ _ H.
      rewrite E in E'. injection E' as Ee Es. subst e' s'. congruence.
    + intros x I T. revert T. apply N. intros e' s' x' E' _ I' T' H.
      rewrite E in E'. injection E' as Ee Es. subst e' s'.
      rewrite I in I'. injection I' as <-. lia.
Qed.

Lemma nth_error_replace_nth (s : str) :
  forall i c, (i < List.length s)%nat -> nth_error (replace_nth i c s) i = Some c.
Proof.
  induction s as [|x r IH]; intros [|i] c H; simpl in *; try lia; [reflexivity|].
  apply IH. lia.
Qed.

Lemma in_replace_nth (s : str) :
  forall i c y, In y (replace_nth i c s) -> y = c \/ In y s.
Proof.
  induction s as [|x r IH]; intros [|i] c y H; simpl in *; try tauto.
  - destruct H as [H|H]; auto.
  - destruct H as [H|H]; auto. destruct (IH _ _ _ H); auto.
Qed.

(** C8. Tamper detection: if a token is accepted, then replacing one
    character of its signature field by a different character gives a
    token that is rejected. *)
Theorem tampered_signature_rejected (now : datetime) (token u f1 f2 sig : str)
  (i : nat) (c : ascii) :
  verify_token cfg now token = Some u ->
  split colon token = [f1; f2; sig] ->
  (i < List.length sig)%nat ->
  nth_error sig i <> Some c ->
  token = f1 ++ lit ":" ++ f2 ++ lit ":" ++ sig /\
  verify_token cfg now (f1 ++ lit ":" ++ f2 ++ lit ":" ++ replace_nth i c sig) = None.
Proof.
  intros V E Hi Hc. split.
  - rewrite <- (join_split colon token), E. reflexivity.
  - pose proof (split_fields_no_sep colon token) as F. rewrite E in F.
    inversion F as [|? ? F1 F']; subst. inversion F' as [|? ? F2 F'']; subst.
    inversion F'' as [|? ? F3 _]; subst.
    apply verify_token_some in V. destruct V as (e' & s' & x & E' & S' & I & T).
    rewrite E in E'. injection E' as Eu Ee Es. subst u e' s'.
    assert (Hne : replace_nth i c sig <> sig).
    { intros Heq. apply Hc. rewrite <- Heq at 1. now apply nth_error_replace_nth. }
    destruct (ascii_dec c colon) as [->|Hcol].
    + apply verify_token_arity. rewrite length_split.
      change (lit ":") with [colon].
      rewrite !count_occ_app. simpl.
      destruct (ascii_dec colon colon) as [_|N]; [|contradiction].
      assert (In colon (replace_nth i colon sig)).
      { eapply nth_error_In. now apply nth_error_replace_nth. }
      apply (count_occ_In ascii_dec) in H. lia.
    + assert (F3' : ~ In colon (replace_nth i c sig)).
      { intros Hin. apply in_replace_nth in Hin. destruct Hin; [congruence|auto]. }
      rewrite (verify_token_fields now _ f1 f2 (replace_nth i c sig))
        by (now apply split_three).
      destruct (compare_digest _ _) as [[|]|] eqn:C; try reflexivity.
      apply compare_digest_true in C. destruct C as (_ & _ & C). congruence.
Qed.

End TokenProperties.

(** ** The token scenario of the specification *)

Example scenario_issue :
  create_token scenario_settings (seconds 1000) (lit "abc123") = scenario_token.
Proof. vm_compute. reflexivity. Qed.

Example scenario_verify_before :
  verify_token scenario_settings (seconds 1059) scenario_token = Some (lit "abc123").
Proof. vm_compute. reflexivity. Qed.

Example scenario_verify_after :
  verify_token scenario_settings (seconds 1061) scenario_token = None.
Proof. vm_compute. reflexivity. Qed.

Lemma verify_create_token_witness :
  delimiter_free (lit "abc123") /\ 0 < TOKEN_EXP_MIN scenario_settings /\
  verify_token scenario_settings (seconds 1000)
    (create_token scenario_settings (seconds 1000) (lit "abc123"))
  = Some (lit "abc123").
Proof.
  assert (H : delimiter_free (lit "abc123"))
    by (apply delimiter_free_check; reflexivity).
  split; [exact H|]. split; [reflexivity|].
  apply (verify_create_token scenario_settings (seconds 1000) (lit "abc123") H).
  reflexivity.
Defined.

Lemma create_token_wire_format_witness :
  delimiter_free (lit "abc123") /\
  create_token scenario_settings (seconds 1000) (lit "abc123")
  = lit "abc123" ++ lit ":" ++ str_of_int 1060 ++ lit ":" ++ scenario_signature /\
  split colon (create_token scenario_settings (seconds 1000) (lit "abc123"))
  = [lit "abc123"; lit "1060"; scenario_signature].
Proof.
  assert (H : delimiter_free (lit "abc123"))
    by (apply delimiter_free_check; reflexivity).
  split; [exact H|].
  pose proof (create_token_wire_format scenario_settings (seconds 1000)
                (lit "abc123") H) as W.
  cbv zeta in W. destruct W as (W1 & W2 & _).
  split.
  - rewrite W1. vm_compute. reflexivity.
  - rewrite W2. vm_compute. reflexivity.
Defined.

(** C2, counterexample.  The scenario token expires at second 1060.  At
    second 1060 exactly, and still 999999 microseconds later, its expiry
    is not strictly greater than the current time, yet it is accepted. *)
Lemma verify_token_at_expiry_second :
  split colon scenario_token = [lit "abc123"; lit "1060"; scenario_signature] /\
  int (lit "1060") = Some 1060 /\
  ~ (timestamp (seconds 1060) < 1060) /\
  ~ (1060999999 < 1060 * 1000000) /\
  verify_token scenario_settings (seconds 1060) scenario_token = Some (lit "abc123") /\
  verify_token scenario_settings 1060999999 scenario_token = Some (lit "abc123").
Proof.
  split; [vm_compute; reflexivity|]. split; [vm_compute; reflexivity|].
  split; [vm_compute; discriminate|]. split; [lia|].
  split; vm_compute; reflexivity.
Qed.

Lemma verify_token_expiry_witness :
  split colon scenario_token = [lit "abc123"; lit "1060"; scenario_signature] /\
  int (lit "1060") = Some 1060 /\ 1060 < timestamp (seconds 1061) /\
  verify_token scenario_settings (seconds 1061) scenario_token = None.
Proof.
  assert (E : split colon scenario_token
              = [lit "abc123"; lit "1060"; scenario_signature])
    by (vm_compute; reflexivity).
  assert (I : int (lit "1060") = Some 1060) by (vm_compute; reflexivity).
  assert (T : 1060 < timestamp (seconds 1061)) by (vm_compute; reflexivity).
  split; [exact E|]. split; [exact I|]. split; [exact T|].
  exact (proj2 (verify_token_expiry scenario_settings (seconds 1061)
                  scenario_token _ _ _ 1060 E I) T).
Defined.

Lemma verify_token_total_witness :
  List.length (split colon (lit "abc123:1060")) <> 3%nat /\
  verify_token scenario_settings (seconds 1000) (lit "abc123:1060") = None.
Proof.
  assert (L : List.length (split colon (lit "abc123:1060")) <> 3%nat)
    by (vm_compute; discriminate).
  split; [exact L|].
  exact (proj1 (proj2 (proj2 (verify_token_total scenario_settings
                                (seconds 1000) (lit "abc123:1060")))) L).
Defined.

Lemma tampered_signature_rejected_witness :
  verify_token scenario_settings (seconds 1059) scenario_token = Some (lit "abc123") /\
  nth_error scenario_signature 0 = Some "c"%char /\
  verify_token scenario_settings (seconds 1059)
    (lit "abc123" ++ lit ":" ++ lit "1060" ++ lit ":" ++
     replace_nth 0 "d" scenario_signature) = None.
Proof.
  assert (V : verify_token scenario_settings (seconds 1059) scenario_token
              = Some (lit "abc123")) by (vm_compute; reflexivity).
  assert (E : split colon scenario_token
              = [lit "abc123"; lit "1060"; scenario_signature])
    by (vm_compute; reflexivity).
  split; [exact V|]. split; [reflexivity|].
  refine (proj2 (tampered_signature_rejected scenario_settings (seconds 1059)
                   scenario_token _ _ _ scenario_signature 0 "d" V E _ _)).
  - vm_compute. lia.
  - vm_compute. discriminate.
Defined.

(** ** The collection *)

Lemma matches_true (u g : str) (x : save ObjectId) :
  matches u g x = true <-> user_id x = u /\ game_slug x = g.
Proof.
  unfold matches. rewrite andb_true_iff, !str_eqb_eq. reflexivity.
Qed.

Lemma matches_set_fields (u g : str) (d : dict) (now : datetime) (x : save ObjectId) :
  matches u g (set_fields d now x) = matches u g x.
Proof. reflexivity. Qed.

Lemma find_snoc {A} (f : A -> bool) (l : list A) (x : A) :
  find f (l ++ [x]) =
  match find f l with
  | Some y => Some y
  | None => if f x then Some x else None
  end.
Proof.
  induction l as [|a l IH]; simpl; [reflexivity|].
  destruct (f a); [reflexivity|exact IH].
Qed.

Lemma find_map_same {A} (f : A -> bool) (F : A -> A) (l : list A) :
  (forall x, f (F x) = f x) ->
  find f (map F l) = option_map F (find f l).
Proof.
  intros H. induction l as [|a l IH]; simpl; [reflexivity|].
  rewrite H. destruct (f a); [reflexivity|exact IH].
Qed.

Lemma NoDup_map_inj {A B} (f : A -> B) (l : list A) (x y : A) :
  NoDup (map f l) -> In x l -> In y l -> f x = f y -> x = y.
Proof.
  induction l as [|a l IH]; simpl; intros ND Hx Hy E; [contradiction|].
  inversion ND as [|? ? Hn ND']; subst.
  destruct Hx as [->|Hx], Hy as [->|Hy]; auto.
  - exfalso. apply Hn. rewrite E. now apply in_map.
  - exfalso. apply Hn. rewrite <- E. now apply in_map.
Qed.

Lemma NoDup_snoc {A} (l : list A) (x : A) :
  NoDup l -> ~ In x l -> NoDup (l ++ [x]).
Proof.
  induction l as [|a l IH]; simpl; intros ND Hx.
  - constructor; [intros []|constructor].
  - inversion ND as [|? ? Hn ND']; subst. constructor.
    + rewrite in_app_iff. simpl. intros [H|[H|[]]]; [contradiction|].
      apply Hx. now left.
    + apply IH; [assumption|]. intros H. apply Hx. now right.
Qed.

Lemma update_first_amend (id : ObjectId) (d : dict) (now : datetime)
  (docs : list (save ObjectId)) :
  NoDup (map doc_id docs) ->
  update_first id d now docs = map (amend id d now) docs.
Proof.
  induction docs as [|a l IH]; simpl; intros ND; [reflexivity|].
  inversion ND as [|? ? Hn ND']; subst. unfold amend at 1.
  destruct (N.eqb_spec (doc_id a) id) as [E|E].
  - f_equal. rewrite <- (map_id l) at 1. apply map_ext_in.
    intros x Hx. unfold amend.
    destruct (N.eqb_spec (doc_id x) id) as [E'|E']; [|reflexivity].
    exfalso. apply Hn. rewrite E, <- E'. now apply in_map.
  - f_equal. now apply IH.
Qed.

Lemma doc_id_amend (id : ObjectId) (d : dict) (now : datetime) (x : save ObjectId) :
  doc_id (amend id d now x) = doc_id x.
Proof. unfold amend. now destruct (N.eqb _ _). Qed.

Lemma matches_amend (u g : str) (id : ObjectId) (d : dict) (now : datetime)
  (x : save ObjectId) :
  matches u g (amend id d now x) = matches u g x.
Proof. unfold amend. now destruct (N.eqb _ _). Qed.

Lemma wf_update_one (id : ObjectId) (d : dict) (now : datetime) (c : collection) :
  wf c -> wf (update_one id d now c).
Proof.
  intros [ND B]. unfold wf, update_one. simpl.
  rewrite update_first_amend by assumption.
  rewrite map_map.
  rewrite (map_ext _ doc_id) by (intros; apply doc_id_amend).
  split; [assumption|].
  rewrite Forall_map. eapply Forall_impl; [|exact B].
  intros x Hx. now rewrite doc_id_amend.
Qed.

Lemma wf_insert_one (u g : str) (d : dict) (t1 t2 : datetime) (c : collection) :
  wf c -> wf (snd (insert_one u g d t1 t2 c)).
Proof.
  intros [ND B]. unfold wf, insert_one. simpl. split.
  - rewrite map_app. simpl. apply NoDup_snoc; [assumption|].
    intros H. apply in_map_iff in H. destruct H as (x & E & Hx).
    rewrite Forall_forall in B. apply B in Hx. simpl in E, Hx.
    unfold ObjectId in *. lia.
  - apply Forall_app. split.
    + eapply Forall_impl; [|exact B]. intros x Hx. simpl in *. lia.
    + constructor; [simpl; lia|constructor].
Qed.

Lemma wf_upserted (u g : str) (d : dict) (now : datetime) (c : collection) :
  wf c -> wf (upserted u g d now c).
Proof.
  intros W. unfold upserted. destruct (find_one u g c).
  - now apply wf_update_one.
  - now apply wf_insert_one.
Qed.

Lemma wf_empty : wf empty_collection.
Proof. split; constructor. Qed.

Lemma find_one_update_one (u g : str) (id : ObjectId) (d : dict) (now : datetime)
  (c : collection) :
  wf c ->
  find_one u g (update_one id d now c) = option_map (amend id d now) (find_one u g c).
Proof.
  intros [ND _]. unfold find_one, update_one. simpl.
  rewrite update_first_amend by assumption.
  apply find_map_same. intros x. apply matches_amend.
Qed.


(** A write leaves every other key as it was. *)
Lemma find_one_upserted_other (u g u' g' : str) (d : dict) (now : datetime)
  (c : collection) :
  wf c -> (u', g') <> (u, g) ->
  find_one u' g' (upserted u g d now c) = find_one u' g' c.
Proof.
  intros W K. unfold upserted. destruct (find_one u g c) as [e|] eqn:F.
  - rewrite find_one_update_one by assumption.
    destruct (find_one u' g' c) as [x|] eqn:F'; [|reflexivity]. simpl.
    unfold find_one in F, F'.
    apply find_some in F, F'. destruct F as [Ie Me], F' as [Ix Mx].
    apply matches_true in Me, Mx. destruct Me as [<- <-], Mx as [<- <-].
    unfold amend. destruct (N.eqb_spec (doc_id x) (doc_id e)) as [E|E]; [|reflexivity].
    exfalso. apply K. destruct W as [ND _].
    now rewrite (NoDup_map_inj doc_id _ x e ND Ix Ie E).
  - unfold find_one in *. simpl. rewrite find_snoc.
    destruct (find (matches u' g') (documents c)); [reflexivity|].
    destruct (matches u' g' _) eqn:M; [|reflexivity].
    apply matches_true in M. simpl in M. destruct M as [-> ->]. now contradiction K.
Qed.

(** ** The handlers *)

Section HandlerProperties.

Variable cfg : settings.

(** [get_current_user_id] reads nothing from the world and only adds to
    the log of verified tokens. *)
Lemma get_current_user_id_world (now : datetime) (a : option str) (w : world) :
  exists log,
    get_current_user_id cfg now a w =
    (fst (get_current_user_id cfg now a (World None [])),
     World (db w) (log ++ verified w)).
Proof.
  destruct w as [c v]. unfold get_current_user_id.
  destruct a as [[|x r]|]; try (exists []; reflexivity).
  destruct (negb (startswith (lit "bearer ") (lower (x :: r))));
    [exists []; reflexivity|].
  destruct (after_first " " (x :: r)) as [token|]; [|exists []; reflexivity].
  exists [token]. unfold bind, call_verify_token.
  destruct (verify_token cfg now token) as [[|u us]|]; reflexivity.
Qed.

Lemma authenticates_run (now : datetime) (a : option str) (u : str) (w : world) :
  authenticates cfg now a u ->
  exists log,
    get_current_user_id cfg now a w = (Ok u, World (db w) (log ++ verified w)).
Proof.
  intros H. destruct (get_current_user_id_world now a w) as [log E].
  exists log. rewrite E. unfold authenticates in H. now rewrite H.
Qed.

Lemma not_authenticated_run (now : datetime) (a : option str) (w : world) :
  (forall u, ~ authenticates cfg now a u) ->
  exists code detail log,
    get_current_user_id cfg now a w =
    (HTTPException code detail, World (db w) (log ++ verified w)).
Proof.
  intros H. destruct (get_current_user_id_world now a w) as [log E].
  destruct (fst (get_current_user_id cfg now a (World None []))) as [u|code detail] eqn:R.
  - exfalso. exact (H u R).
  - exists code, detail, log. exact E.
Qed.

Lemma authenticates_truthy (now : datetime) (a : option str) (u : str) :
  authenticates cfg now a u -> truthy a = true.
Proof.
  unfold authenticates. destruct a as [[|x r]|]; [discriminate|reflexivity|discriminate].
Qed.

Lemma authenticates_decide (now : datetime) (a : option str) :
  (exists u, authenticates cfg now a u) \/ (forall u, ~ authenticates cfg now a u).
Proof.
  unfold authenticates.
  destruct (fst (get_current_user_id cfg now a (World None []))) as [u|code detail].
  - left. now exists u.
  - right. intros u H. discriminate.
Qed.

Lemma authenticates_unique (now : datetime) (a : option str) (u u' : str) :
  authenticates cfg now a u -> authenticates cfg now a u' -> u = u'.
Proof. unfold authenticates. congruence. Qed.

(** An accepted write stores [upserted] and answers with the document as
    it is after the write. *)
Lemma upsert_save_authenticated (t now : datetime) (g : str) (d : dict)
  (a : option str) (u : str) (c : collection) (v : list str) :
  authenticates cfg t a u ->
  exists log,
    upsert_save cfg t now g d a (World (Some c) v) =
    (Ok (Stored (match find_one u g c with
                 | Some existing => with_str_id (set_fields d now existing)
                 | None => Save (str_of_oid (next_id c)) u g d now now
                 end)),
     World (Some (upserted u g d now c)) (log ++ v)).
Proof.
  intros H.
  destruct (authenticates_run t a u (World (Some c) v) H) as [log E].
  exists log. unfold upsert_save, bind, require_db. cbn [db].
  rewrite E. unfold upserted. cbn [db verified].
  destruct (find_one u g c) as [e|]; reflexivity.
Qed.

(** A rejected write changes nothing in the collection. *)
Lemma upsert_save_rejected (t now : datetime) (g : str) (d : dict)
  (a : option str) (c : collection) (v : list str) :
  (forall u, ~ authenticates cfg t a u) ->
  exists code detail log,
    upsert_save cfg t now g d a (World (Some c) v) =
    (HTTPException code detail, World (Some c) (log ++ v)).
Proof.
  intros H.
  destruct (not_authenticated_run t a (World (Some c) v) H) as (code & detail & log & E).
  exists code, detail, log. unfold upsert_save, bind, require_db. cbn [db].
  now rewrite E.
Qed.

Lemma get_saves_authenticated (t : datetime) (g : str) (a : option str) (u : str)
  (c : collection) (v : list str) :
  authenticates cfg t a u ->
  exists log,
    get_saves cfg t g a (World (Some c) v) =
    (Ok (match find_one u g c with
         | Some s => Stored (with_str_id s)
         | None => Default g []
         end),
     World (Some c) (log ++ v)).
Proof.
  intros H.
  destruct (authenticates_run t a u (World (Some c) v) H) as [log E].
  exists log. unfold get_saves, bind, require_db. cbn [db].
  rewrite (authenticates_truthy t a u H), E. cbn [db verified].
  destruct (find_one u g c); reflexivity.
Qed.

Lemma serve_cases (c : collection) (v : list str) (r : upsert_request) :
  exists v',
    (exists u, authenticates cfg (rq_auth_time r) (rq_authorization r) u /\
       serve cfg (World (Some c) v) r =
       World (Some (upserted u (rq_slug r) (rq_data r) (rq_now r) c)) v') \/
    serve cfg (World (Some c) v) r = World (Some c) v'.
Proof.
  unfold serve.
  destruct (authenticates_decide (rq_auth_time r) (rq_authorization r)) as [[u H]|H].
  - destruct (upsert_save_authenticated (rq_auth_time r) (rq_now r) (rq_slug r)
                (rq_data r) _ u c v H) as [log E].
    exists (log ++ v). left. exists u. split; [exact H|]. now rewrite E.
  - destruct (upsert_save_rejected (rq_auth_time r) (rq_now r) (rq_slug r)
                (rq_data r) _ c v H) as (code & detail & log & E).
    exists (log ++ v). right. now rewrite E.
Qed.

(** Requests that are not writes to the key [(u, g)] leave that key as it
    was, whatever else they do. *)
Lemma serve_all_frame (u g : str) (rs : list upsert_request) :
  forall c v,
    wf c -> (forall r, In r rs -> ~ writes_key cfg u g r) ->
    exists c' v',
      serve_all cfg rs (World (Some c) v) = World (Some c') v' /\
      wf c' /\ find_one u g c' = find_one u g c.
Proof.
  induction rs as [|r rs IH]; intros c v W H.
  - exists c, v. auto.
  - assert (Hr : ~ writes_key cfg u g r) by (apply H; now left).
    assert (Hrs : forall r', In r' rs -> ~ writes_key cfg u g r')
      by (intros r' Hin; apply H; now right).
    unfold serve_all. simpl. fold (serve_all cfg rs).
    destruct (serve_cases c v r) as [v' [(u0 & A & E)|E]]; rewrite E.
    + destruct (IH _ v' (wf_upserted u0 (rq_slug r) (rq_data r) (rq_now r) c W) Hrs)
        as (c' & v'' & E' & W' & F').
      exists c', v''. split; [exact E'|]. split; [exact W'|].
      rewrite F'. apply find_one_upserted_other; [exact W|].
      intros K. injection K as -> Kg. apply Hr. split; [exact A|now symmetry].
    + destruct (IH _ v' W Hrs) as (c' & v'' & E' & W' & F').
      exists c', v''. auto.
Qed.



(** C5. Ownership isolation.  (1) A key without a record that no later
    accepted write addresses has no record, and its owner reads the empty
    default.  (2) After a write by [u1], another identity [u2] that has
    no record for the game still reads the empty default.  (3) A write by
    [u2] leaves the record of [u1] for the same game as it was.  (4) What
    a reader is given always carries the reader's own identity. *)
Theorem save_ownership_isolation :
  (forall (rs : list upsert_request) (c : collection) (v : list str)
          (t : datetime) (a : option str) (u g : str),
     wf c -> find_one u g c = None ->
     (forall r, In r rs -> ~ writes_key cfg u g r) ->
     authenticates cfg t a u ->
     exists c' v',
       serve_all cfg rs (World (Some c) v) = World (Some c') v' /\
       find_one u g c' = None /\
       fst (get_saves cfg t g a (World (Some c') v')) = Ok (Default g [])) /\
  (forall (c : collection) (v : list str) (t1 n1 t2 : datetime)
          (a1 a2 : option str) (u1 u2 g : str) (d : dict),
     wf c -> u1 <> u2 -> find_one u2 g c = None ->
     authenticates cfg t1 a1 u1 -> authenticates cfg t2 a2 u2 ->
     fst (get_saves cfg t2 g a2
            (snd (upsert_save cfg t1 n1 g d a1 (World (Some c) v))))
     = Ok (Default g [])) /\
  (forall (c : collection) (v : list str) (t2 n2 : datetime)
          (a2 : option str) (u1 u2 g : str) (d' : dict),
     wf c -> u1 <> u2 -> authenticates cfg t2 a2 u2 ->
     exists c' v',
       snd (upsert_save cfg t2 n2 g d' a2 (World (Some c) v)) = World (Some c') v' /\
       find_one u1 g c' = find_one u1 g c) /\
  (forall (c : collection) (v : list str) (t : datetime) (a : option str)
          (u g : str) (s : save str),
     authenticates cfg t a u ->
     fst (get_saves cfg t g a (World (Some c) v)) = Ok (Stored s) ->
     user_id s = u /\ game_slug s = g).
Proof.
  split; [|split; [|split]].
  - intros rs c v t a u g W F H A.
    destruct (serve_all_frame u g rs c v W H) as (c' & v' & E & W' & F').
    exists c', v'. split; [exact E|]. rewrite F' , F. split; [reflexivity|].
    destruct (get_saves_authenticated t g a u c' v' A) as [log G].
    rewrite G. cbn [fst]. now rewrite F', F.
  - intros c v t1 n1 t2 a1 a2 u1 u2 g d W N F A1 A2.
    destruct (upsert_save_authenticated t1 n1 g d a1 u1 c v A1) as [l1 E1].
    rewrite E1. cbn [snd].
    destruct (get_saves_authenticated t2 g a2 u2 (upserted u1 g d n1 c) (l1 ++ v) A2)
      as [l2 G].
    rewrite G. cbn [fst].
    rewrite find_one_upserted_other, F; [reflexivity|exact W|].
    intros K. injection K as K. now apply N.
  - intros c v t2 n2 a2 u1 u2 g d' W N A2.
    destruct (upsert_save_authenticated t2 n2 g d' a2 u2 c v A2) as [l2 E2].
    rewrite E2. cbn [snd]. eexists _, _. split; [reflexivity|].
    apply find_one_upserted_other; [exact W|].
    intros K. injection K as K. now apply N.
  - intros c v t a u g s A G.
    destruct (get_saves_authenticated t g a u c v A) as [log E].
    rewrite E in G. cbn [fst] in G.
    destruct (find_one u g c) as [x|] eqn:F; [|discriminate].
    injection G as <-. unfold find_one in F. apply find_some in F.
    destruct F as [_ M]. apply matches_true in M. exact M.
Qed.

(** C10. With the database configured, a read that presents no
    authorization value verifies no token (the log of verified tokens is
    unchanged) and answers with the empty default record, while a write
    that presents none fails with 401 and changes nothing. *)
Theorem no_token_read_default_write_unauthorized (c : collection) (v : list str)
  (a : option str) (slug : str) (t now : datetime) (d : dict) :
  truthy a = false ->
  get_saves cfg t slug a (World (Some c) v)
    = (Ok (Default slug []), World (Some c) v) /\
  upsert_save cfg t now slug d a (World (Some c) v)
    = (HTTPException 401 (lit "Missing bearer token"), World (Some c) v).
Proof.
  intros H. destruct a as [[|x r]|]; try discriminate; split; reflexivity.
Qed.

End HandlerProperties.

(** ** The save scenario of the specification *)

Lemma startswith_bearer (token : str) :
  startswith (lit "bearer ") (lower ("B"%char :: lit "earer " ++ token)) = true.
Proof. reflexivity. Qed.

Lemma after_first_bearer (token : str) :
  after_first " " ("B"%char :: lit "earer " ++ token) = Some token.
Proof. reflexivity. Qed.

(** A token issued for a non-empty delimiter-free identity is accepted as
    a bearer token at the instant of issuance. *)
Lemma bearer_create_token_authenticates (cfg : settings) (now : datetime) (u : str) :
  delimiter_free u -> u <> [] -> 0 < TOKEN_EXP_MIN cfg ->
  authenticates cfg now (bearer (create_token cfg now u)) u.
Proof.
  intros D N T. unfold authenticates, bearer, get_current_user_id.
  change (lit "Bearer " ++ create_token cfg now u)
    with ("B"%char :: lit "earer " ++ create_token cfg now u).
  cbv iota.
  rewrite startswith_bearer, after_first_bearer. cbn [negb].
  unfold bind, call_verify_token.
  rewrite (verify_token_issued cfg now u D (Z.lt_le_incl _ _ T)).
  destruct u as [|x r]; [contradiction|reflexivity].
Qed.


Lemma authenticates_u2 :
  authenticates scenario_settings (seconds 1059) (bearer (token_for (lit "u2"))) (lit "u2").
Proof. vm_compute. reflexivity. Qed.

Example scenario_upsert_twice :
  let a := bearer (token_for (lit "u1")) in
  let w1 := snd (upsert_save scenario_settings (seconds 1059) (seconds 1100)
                   tower_defence (level 3) a fresh_world) in
  let w2 := snd (upsert_save scenario_settings (seconds 1059) (seconds 1200)
                   tower_defence (level 5) a w1) in
  fst (get_saves scenario_settings (seconds 1059) tower_defence a w2)
  = Ok (Stored (Save (lit "000000000000000000000000") (lit "u1") tower_defence
                  (level 5) (seconds 1100) (seconds 1200))).
Proof. vm_compute. reflexivity. Qed.


Lemma wf_one_save : wf one_save.
Proof.
  split.
  - repeat constructor. intros [].
  - repeat constructor.
Qed.


Lemma save_ownership_isolation_witness :
  fst (get_saves scenario_settings (seconds 1059) tower_defence
         (bearer (token_for (lit "u2")))
         (snd (upsert_save scenario_settings (seconds 1059) (seconds 1100)
                 tower_defence (level 3) (bearer (token_for (lit "u1")))
                 fresh_world)))
  = Ok (Default tower_defence []) /\
  exists c' v',
    snd (upsert_save scenario_settings (seconds 1059) (seconds 1200)
           tower_defence (level 5) (bearer (token_for (lit "u2")))
           (World (Some one_save) []))
    = World (Some c') v' /\
    find_one (lit "u1") tower_defence c' = find_one (lit "u1") tower_defence one_save.
Proof.
  assert (N : lit "u1" <> lit "u2") by discriminate.
  split.
  - apply (proj1 (proj2 (save_ownership_isolation scenario_settings))
             empty_collection [] (seconds 1059) (seconds 1100) (seconds 1059)
             (bearer (token_for (lit "u1"))) (bearer (token_for (lit "u2")))
             (lit "u1") (lit "u2") tower_defence (level 3)).
    + exact wf_empty.
    + exact N.
    + reflexivity.
    + vm_compute. reflexivity.
    + vm_compute. reflexivity.
  - apply (proj1 (proj2 (proj2 (save_ownership_isolation scenario_settings)))
             one_save [] (seconds 1059) (seconds 1200)
             (bearer (token_for (lit "u2"))) (lit "u1") (lit "u2")
             tower_defence (level 5)).
    + exact wf_one_save.
    + exact N.
    + vm_compute. reflexivity.
Defined.

Lemma no_token_read_default_write_unauthorized_witness :
  truthy None = false /\
  get_saves scenario_settings (seconds 1059) tower_defence None
    (World (Some one_save) [])
  = (Ok (Default tower_defence []), World (Some one_save) []) /\
  upsert_save scenario_settings (seconds 1059) (seconds 1200) tower_defence
    (level 5) None (World (Some one_save) [])
  = (HTTPException 401 (lit "Missing bearer token"), World (Some one_save) []).
Proof.
  split; [reflexivity|].
  apply (no_token_read_default_write_unauthorized scenario_settings one_save []
           None tower_defence (seconds 1059) (seconds 1200) (level 5)).
  reflexivity.
Defined.

(** * Further properties of the code *)

(** ** Issued tokens *)

Section IssuedTokens.

Variable cfg : settings.

(** X1.  The validity window of an issued token: it is accepted, as the
    identity it was issued for, at every instant whose second is not after
    the expiry second, and rejected at every later instant. *)
Theorem issued_token_window (now t : datetime) (u : str) :
  delimiter_free u ->
  let exp := timestamp (add_minutes now (TOKEN_EXP_MIN cfg)) in
  (timestamp t <= exp -> verify_token cfg t (create_token cfg now u) = Some u) /\
  (exp < timestamp t -> verify_token cfg t (create_token cfg now u) = None).
Proof.
  intros D exp.
  pose proof (create_token_split cfg now u D) as E. cbv zeta in E. fold exp in E.
  rewrite (verify_token_fields cfg t _ _ _ _ E).
  assert (C : compare_digest (sign cfg (u ++ [colon] ++ str_of_int exp))
                (sign cfg (u ++ [colon] ++ str_of_int exp)) = Return true).
  { apply compare_digest_true. repeat split; apply sign_is_ascii. }
  rewrite C, int_str_of_int.
  split; intros H; destruct (Z.ltb_spec exp (timestamp t)); try reflexivity; lia.
Qed.

(** X2.  An identity that contains the delimiter gives a token that is never
    accepted, at any instant. *)
Theorem delimiter_in_identity_rejected (now t : datetime) (u : str) :
  In colon u -> verify_token cfg t (create_token cfg now u) = None.
Proof.
  intros H. apply verify_token_arity. rewrite length_split.
  unfold create_token. cbv zeta.
  generalize (sign cfg (u ++ [colon] ++
                str_of_int (timestamp (add_minutes now (TOKEN_EXP_MIN cfg))))).
  generalize (str_of_int (timestamp (add_minutes now (TOKEN_EXP_MIN cfg)))).
  intros e sig. rewrite !count_occ_app.
  rewrite !(count_occ_cons_eq ascii_dec _ (eq_refl colon)).
  apply (count_occ_In ascii_dec) in H. lia.
Qed.

End IssuedTokens.

Lemma issued_token_window_witness :
  delimiter_free (lit "abc123") /\
  verify_token scenario_settings (seconds 1060)
    (create_token scenario_settings (seconds 1000) (lit "abc123")) = Some (lit "abc123") /\
  verify_token scenario_settings (seconds 1061)
    (create_token scenario_settings (seconds 1000) (lit "abc123")) = None.
Proof.
  assert (D : delimiter_free (lit "abc123"))
    by (apply delimiter_free_check; reflexivity).
  split; [exact D|]. split.
  - apply (proj1 (issued_token_window scenario_settings (seconds 1000)
                    (seconds 1060) (lit "abc123") D)).
    vm_compute. discriminate.
  - apply (proj2 (issued_token_window scenario_settings (seconds 1000)
                    (seconds 1061) (lit "abc123") D)).
    vm_compute. reflexivity.
Defined.

Lemma delimiter_in_identity_rejected_witness :
  In colon (lit "a:b") /\
  verify_token scenario_settings (seconds 1000)
    (create_token scenario_settings (seconds 1000) (lit "a:b")) = None.
Proof.
  assert (H : In colon (lit "a:b")) by (right; left; reflexivity).
  split; [exact H|].
  exact (delimiter_in_identity_rejected scenario_settings (seconds 1000)
           (seconds 1000) (lit "a:b") H).
Defined.

(** ** The bearer dependency *)

Lemma lower_char_space (c : ascii) : lower_char c = " "%char -> c = " "%char.
Proof.
  destruct c as [[] [] [] [] [] [] [] []]; vm_compute; intros H;
    first [reflexivity | discriminate H].
Qed.

Lemma lower_char_idem (c : ascii) : lower_char (lower_char c) = lower_char c.
Proof. destruct c as [[] [] [] [] [] [] [] []]; reflexivity. Qed.

Lemma lower_idem (s : str) : lower (lower s) = lower s.
Proof.
  unfold lower. rewrite map_map. apply map_ext. apply lower_char_idem.
Qed.

Lemma lower_app (a b : str) : lower (a ++ b) = lower a ++ lower b.
Proof. apply map_app. Qed.

Lemma after_first_skip (sep : ascii) (a r : str) :
  ~ In sep a -> after_first sep (a ++ sep :: r) = Some r.
Proof.
  induction a as [|c a IH]; simpl; intros H.
  - now rewrite Ascii.eqb_refl.
  - destruct (Ascii.eqb_spec c sep) as [E|E]; [exfalso; apply H; now left|].
    apply IH. intros Hin. apply H. now right.
Qed.

Lemma lower_bearer_no_space (scheme : str) :
  lower scheme = lit "bearer" -> ~ In " "%char scheme.
Proof.
  intros E Hin. apply (in_map lower_char) in Hin. fold (lower scheme) in Hin.
  rewrite E in Hin. vm_compute in Hin.
  repeat (destruct Hin as [Hin|Hin]; [discriminate Hin|]). exact Hin.
Qed.

Lemma startswith_true (p s : str) :
  startswith p s = true <-> exists r, s = p ++ r.
Proof.
  revert s. induction p as [|x p IH]; intros s; simpl.
  - split; [intros _; now exists s|reflexivity].
  - destruct s as [|c s].
    + split; [discriminate|]. intros (r & E). discriminate.
    + rewrite andb_true_iff, IH. split.
      * intros (E & r & ->). apply Ascii.eqb_eq in E. subst. now exists r.
      * intros (r & E). injection E as -> ->. split;
          [apply Ascii.eqb_refl|now exists r].
Qed.

(** The shape of an authorization value that passes the prefix test. *)
Lemma bearer_prefix (s : str) :
  startswith (lit "bearer ") (lower s) = true <->
  exists scheme token,
    s = scheme ++ " "%char :: token /\ lower scheme = lit "bearer".
Proof.
  rewrite startswith_true. split.
  - intros (r & E).
    change (lit "bearer ") with (lit "bearer" ++ [" "%char]) in E.
    rewrite <- app_assoc in E. unfold lower in E.
    apply map_eq_app in E. destruct E as (scheme & rest & -> & E1 & E2).
    apply map_eq_cons in E2. destruct E2 as (c & token & -> & E2 & _).
    apply lower_char_space in E2. subst c. now exists scheme, token.
  - intros (scheme & token & -> & E).
    rewrite lower_app, E. exists (lower token). reflexivity.
Qed.

Section BearerDependency.

Variable cfg : settings.

Lemma get_current_user_id_missing (now : datetime) (a : option str) (w : world) :
  a = None \/ (exists s, a = Some s /\ startswith (lit "bearer ") (lower s) = false) ->
  get_current_user_id cfg now a w
  = (HTTPException 401 (lit "Missing bearer token"), w).
Proof.
  intros [->|(s & -> & H)]; [reflexivity|].
  destruct s as [|c r]; [reflexivity|].
  unfold get_current_user_id. now rewrite H.
Qed.

Lemma get_current_user_id_bearer (now : datetime) (scheme token : str) (w : world) :
  lower scheme = lit "bearer" ->
  get_current_user_id cfg now (Some (scheme ++ " "%char :: token)) w =
  (match verify_token cfg now token with
   | Some (u :: us) => Ok (u :: us)
   | _ => HTTPException 401 (lit "Invalid or expired token")
   end,
   World (db w) (token :: verified w)).
Proof.
  intros E.
  assert (P : startswith (lit "bearer ") (lower (scheme ++ " "%char :: token)) = true).
  { apply bearer_prefix. now exists scheme, token. }
  assert (A : after_first " " (scheme ++ " "%char :: token) = Some token).
  { apply after_first_skip. now apply lower_bearer_no_space. }
  destruct scheme as [|c r]; [discriminate E|].
  unfold get_current_user_id.
  change ((c :: r) ++ " "%char :: token) with (c :: (r ++ " "%char :: token)) in *.
  cbv beta iota. rewrite P, A. cbn [negb]. unfold bind, call_verify_token.
  destruct (verify_token cfg now token) as [[|u us]|]; reflexivity.
Qed.

(** X3.  An authorization value is accepted as user [u] exactly when it is a
    word that reads ["bearer"] in any letter case, one space, and a token
    that [verify_token] accepts as the non-empty identity [u]. *)
Theorem bearer_accepted_iff (now : datetime) (a : option str) (u : str) :
  authenticates cfg now a u <->
  exists scheme token,
    a = Some (scheme ++ " "%char :: token) /\ lower scheme = lit "bearer" /\
    verify_token cfg now token = Some u /\ u <> [].
Proof.
  unfold authenticates. split.
  - destruct a as [s|];
      [|rewrite get_current_user_id_missing by (now left); discriminate].
    destruct (startswith (lit "bearer ") (lower s)) eqn:P.
    + apply bearer_prefix in P. destruct P as (scheme & token & -> & E).
      rewrite (get_current_user_id_bearer now scheme token _ E). cbn [fst].
      destruct (verify_token cfg now token) as [[|x us]|] eqn:V; try discriminate.
      intros H. injection H as <-. exists scheme, token.
      split; [reflexivity|]. split; [exact E|]. split; [exact V|discriminate].
    + rewrite get_current_user_id_missing by (right; now exists s). discriminate.
  - intros (scheme & token & -> & E & V & N).
    rewrite (get_current_user_id_bearer now scheme token _ E), V. cbn [fst].
    destruct u as [|x us]; [contradiction|reflexivity].
Qed.

Lemma get_current_user_id_cases (now : datetime) (a : option str) (w : world) :
  (exists u token,
     u <> [] /\
     get_current_user_id cfg now a w = (Ok u, World (db w) (token :: verified w))) \/
  get_current_user_id cfg now a w
    = (HTTPException 401 (lit "Missing bearer token"), w) \/
  (exists token,
     get_current_user_id cfg now a w
     = (HTTPException 401 (lit "Invalid or expired token"),
        World (db w) (token :: verified w))).
Proof.
  destruct a as [s|];
    [|right; left; apply get_current_user_id_missing; now left].
  destruct (startswith (lit "bearer ") (lower s)) eqn:P.
  - apply bearer_prefix in P. destruct P as (scheme & token & -> & E).
    pose proof (get_current_user_id_bearer now scheme token w E) as G.
    destruct (verify_token cfg now token) as [[|x us]|].
    + right; right. exists token. exact G.
    + left. exists (x :: us), token. split; [discriminate|exact G].
    + right; right. exists token. exact G.
  - right; left. apply get_current_user_id_missing. right. now exists s.
Qed.

(** X4.  The dependency ends in one of three ways: a non-empty identity; 401
    "Missing bearer token" without any token having been verified; or 401
    "Invalid or expired token" after one verification.  It never fails in
    another way. *)
Theorem get_current_user_id_outcomes (now : datetime) (a : option str) (w : world) :
  (exists u token,
     u <> [] /\
     get_current_user_id cfg now a w = (Ok u, World (db w) (token :: verified w))) \/
  get_current_user_id cfg now a w
    = (HTTPException 401 (lit "Missing bearer token"), w) \/
  (exists token,
     get_current_user_id cfg now a w
     = (HTTPException 401 (lit "Invalid or expired token"),
        World (db w) (token :: verified w))).
Proof. exact (get_current_user_id_cases now a w). Qed.

(** X5.  A token issued for the empty identity is well formed and correctly
    signed, so [verify_token] accepts it inside its validity window, but
    the dependency refuses it at every instant. *)
Theorem empty_identity_token_refused (now t : datetime) (w : world) :
  (timestamp t <= timestamp (add_minutes now (TOKEN_EXP_MIN cfg)) ->
   verify_token cfg t (create_token cfg now []) = Some []) /\
  fst (get_current_user_id cfg t (bearer (create_token cfg now [])) w)
  = HTTPException 401 (lit "Invalid or expired token").
Proof.
  assert (D : delimiter_free []) by (intros []).
  pose proof (create_token_split cfg now [] D) as E. cbv zeta in E.
  pose proof (verify_token_fields cfg t _ _ _ _ E) as V.
  assert (C : forall p, compare_digest (sign cfg p) (sign cfg p) = Return true).
  { intros p. apply compare_digest_true. repeat split; apply sign_is_ascii. }
  rewrite C, int_str_of_int in V.
  split.
  - intros H. rewrite V.
    destruct (Z.ltb_spec (timestamp (add_minutes now (TOKEN_EXP_MIN cfg)))
                (timestamp t)); [lia|reflexivity].
  - unfold bearer.
    change (lit "Bearer " ++ create_token cfg now [])
      with (lit "Bearer" ++ " "%char :: create_token cfg now []).
    rewrite (get_current_user_id_bearer t (lit "Bearer") _ w eq_refl). cbn [fst].
    rewrite V. now destruct (_ <? _).
Qed.

End BearerDependency.

Lemma bearer_accepted_iff_witness :
  authenticates scenario_settings (seconds 1059)
    (Some (lit "BeArEr" ++ " "%char :: scenario_token)) (lit "abc123").
Proof.
  apply (proj2 (bearer_accepted_iff scenario_settings (seconds 1059)
                  (Some (lit "BeArEr" ++ " "%char :: scenario_token)) (lit "abc123"))).
  exists (lit "BeArEr"), scenario_token.
  split; [reflexivity|]. split; [reflexivity|].
  split; [vm_compute; reflexivity|discriminate].
Defined.

Lemma empty_identity_token_refused_witness :
  verify_token scenario_settings (seconds 1000)
    (create_token scenario_settings (seconds 1000) []) = Some [] /\
  fst (get_current_user_id scenario_settings (seconds 1000)
         (bearer (create_token scenario_settings (seconds 1000) [])) fresh_world)
  = HTTPException 401 (lit "Invalid or expired token").
Proof.
  destruct (empty_identity_token_refused scenario_settings (seconds 1000)
              (seconds 1000) fresh_world) as [V R].
  split; [apply V; vm_compute; discriminate|exact R].
Defined.

(** ** Reading and writing saves *)

Section SaveHandlers.

Variable cfg : settings.

Lemma not_accepted_401 (now : datetime) (a : option str) (w : world) :
  (forall u, ~ authenticates cfg now a u) ->
  exists detail log,
    get_current_user_id cfg now a w
    = (HTTPException 401 detail, World (db w) (log ++ verified w)).
Proof.
  intros H.
  destruct (get_current_user_id_cases cfg now a w) as [(u & token & N & E)|[E|(token & E)]].
  - exfalso. apply (H u). unfold authenticates.
    destruct (get_current_user_id_world cfg now a w) as [log W].
    rewrite E in W. now injection W as <- _.
  - exists (lit "Missing bearer token"), []. rewrite E. now destruct w.
  - exists (lit "Invalid or expired token"), [token]. exact E.
Qed.

(** X6.  [get_saves] never changes the database, whatever it is given. *)
Theorem get_saves_read_only (now : datetime) (slug : str) (a : option str) (w : world) :
  db (snd (get_saves cfg now slug a w)) = db w.
Proof.
  destruct w as [[c|] v]; [|reflexivity].
  unfold get_saves, bind, require_db. cbn [db].
  destruct (truthy a); [|reflexivity].
  destruct (get_current_user_id_world cfg now a (World (Some c) v)) as [log E].
  rewrite E.
  destruct (fst (get_current_user_id cfg now a (World None []))) as [u|code detail];
    [|reflexivity].
  cbn [db]. destruct (find_one u slug c); reflexivity.
Qed.

(** X7.  A read that presents an authorization value which is not accepted
    fails with 401; it does not fall back to the empty default. *)
Theorem get_saves_unaccepted (now : datetime) (slug : str) (a : option str)
  (c : collection) (v : list str) :
  truthy a = true -> (forall u, ~ authenticates cfg now a u) ->
  exists detail log,
    get_saves cfg now slug a (World (Some c) v)
    = (HTTPException 401 detail, World (Some c) (log ++ v)).
Proof.
  intros T H.
  destruct (not_accepted_401 now a (World (Some c) v) H) as (detail & log & E).
  exists detail, log. unfold get_saves, bind, require_db. cbn [db].
  now rewrite T, E.
Qed.

(** X8.  A write whose authorization is not accepted fails with 401 and leaves
    the collection exactly as it was. *)
Theorem upsert_save_unaccepted (t now : datetime) (slug : str) (d : dict)
  (a : option str) (c : collection) (v : list str) :
  (forall u, ~ authenticates cfg t a u) ->
  exists detail log,
    upsert_save cfg t now slug d a (World (Some c) v)
    = (HTTPException 401 detail, World (Some c) (log ++ v)).
Proof.
  intros H.
  destruct (not_accepted_401 t a (World (Some c) v) H) as (detail & log & E).
  exists detail, log. unfold upsert_save, bind, require_db. cbn [db].
  now rewrite E.
Qed.


Lemma keys_amend (id : ObjectId) (d : dict) (now : datetime)
  (docs : list (save ObjectId)) :
  map (fun x => (user_id x, game_slug x)) (map (amend id d now) docs)
  = map (fun x => (user_id x, game_slug x)) docs.
Proof.
  rewrite map_map. apply map_ext. intros x. unfold amend.
  now destruct (N.eqb _ _).
Qed.

Lemma keys_unique_upserted (u g : str) (d : dict) (now : datetime) (c : collection) :
  wf c -> keys_unique c -> keys_unique (upserted u g d now c).
Proof.
  intros [ND _] K. unfold keys_unique, upserted in *.
  destruct (find_one u g c) as [e|] eqn:F.
  - unfold update_one. simpl. rewrite update_first_amend by exact ND.
    now rewrite keys_amend.
  - simpl. rewrite map_app. simpl. apply NoDup_snoc; [exact K|].
    intros Hin. apply in_map_iff in Hin. destruct Hin as (x & E & Hx).
    unfold find_one in F. apply (find_none _ _ F) in Hx.
    injection E as Eu Eg.
    assert (M : matches u g x = true) by (apply matches_true; now split).
    congruence.
Qed.

Lemma filter_key_le_1 (u g : str) (docs : list (save ObjectId)) :
  NoDup (map (fun x => (user_id x, game_slug x)) docs) ->
  (List.length (filter (matches u g) docs) <= 1)%nat.
Proof.
  induction docs as [|a l IH]; simpl; intros ND; [lia|].
  inversion ND as [|? ? Hn ND']; subst.
  destruct (matches u g a) eqn:M; [|now apply IH].
  apply matches_true in M. destruct M as [<- <-].
  assert (E : filter (matches (user_id a) (game_slug a)) l = []).
  { destruct (filter (matches (user_id a) (game_slug a)) l) as [|y ys] eqn:Fl;
      [reflexivity|].
    exfalso. assert (Hy : In y (filter (matches (user_id a) (game_slug a)) l))
      by (rewrite Fl; now left).
    apply filter_In in Hy. destruct Hy as [Hy My].
    apply matches_true in My. destruct My as [Eu Eg].
    apply Hn. apply in_map_iff. exists y. split; [now rewrite Eu, Eg|exact Hy]. }
  rewrite E. simpl. lia.
Qed.

(** X10.  The (user, game) key stays unique: from a collection with unique
    identifiers and at most one document a key, any sequence of write
    requests gives a collection with unique identifiers and at most one
    document a key. *)
Theorem serve_all_keys_unique (rs : list upsert_request) :
  forall c v,
    wf c -> keys_unique c ->
    exists c' v',
      serve_all cfg rs (World (Some c) v) = World (Some c') v' /\
      wf c' /\ keys_unique c' /\
      forall u g, (List.length (filter (matches u g) (documents c')) <= 1)%nat.
Proof.
  induction rs as [|r rs IH]; intros c v W K.
  - exists c, v. split; [reflexivity|]. split; [exact W|]. split; [exact K|].
    intros u g. now apply filter_key_le_1.
  - unfold serve_all. simpl. fold (serve_all cfg rs).
    destruct (serve_cases cfg c v r) as [v' [(u0 & A & E)|E]]; rewrite E.
    + apply IH; [now apply wf_upserted|now apply keys_unique_upserted].
    + now apply IH.
Qed.

End SaveHandlers.

Section SaveInvariants.

Variable cfg : settings.

Lemma upserted_keeps (u g : str) (d : dict) (now : datetime) (c : collection)
  (x : save ObjectId) :
  wf c -> In x (documents c) ->
  exists x',
    In x' (documents (upserted u g d now c)) /\ doc_id x' = doc_id x /\
    user_id x' = user_id x /\ game_slug x' = game_slug x /\
    created_at x' = created_at x.
Proof.
  intros [ND _] Hx. unfold upserted. destruct (find_one u g c) as [e|].
  - exists (amend (doc_id e) d now x). unfold update_one. simpl.
    rewrite update_first_amend by exact ND.
    split; [now apply in_map|].
    unfold amend. now destruct (N.eqb _ _).
  - exists x. simpl. rewrite in_app_iff. auto.
Qed.

(** X11.  Documents are never lost and their identity never changes: through
    any sequence of write requests, every document of the collection is
    still there with the same identifier, user, game and creation time. *)
Theorem serve_all_keeps_documents (rs : list upsert_request) :
  forall c v x,
    wf c -> In x (documents c) ->
    exists c' v' x',
      serve_all cfg rs (World (Some c) v) = World (Some c') v' /\
      In x' (documents c') /\ doc_id x' = doc_id x /\
      user_id x' = user_id x /\ game_slug x' = game_slug x /\
      created_at x' = created_at x.
Proof.
  induction rs as [|r rs IH]; intros c v x W Hx.
  - exists c, v, x. repeat split; auto.
  - unfold serve_all. simpl. fold (serve_all cfg rs).
    destruct (serve_cases cfg c v r) as [v' [(u0 & A & E)|E]]; rewrite E.
    + destruct (upserted_keeps u0 (rq_slug r) (rq_data r) (rq_now r) c x W Hx)
        as (x1 & H1 & I1 & U1 & G1 & C1).
      destruct (IH _ v' x1 (wf_upserted u0 (rq_slug r) (rq_data r) (rq_now r) c W) H1)
        as (c' & v'' & x' & E' & H' & I' & U' & G' & C').
      exists c', v'', x'. split; [exact E'|]. split; [exact H'|].
      repeat split; congruence.
    + now apply IH.
Qed.




Lemma chronological_later (T T' : datetime) (c : collection) :
  T <= T' -> chronological T c -> chronological T' c.
Proof.
  intros H C. unfold chronological in *. eapply Forall_impl; [|exact C].
  intros x Hx. simpl in *. lia.
Qed.

Lemma chronological_upserted (T now : datetime) (u g : str) (d : dict)
  (c : collection) :
  wf c -> T <= now -> chronological T c -> chronological now (upserted u g d now c).
Proof.
  intros [ND _] H C. unfold chronological, upserted in *.
  destruct (find_one u g c) as [e|].
  - unfold update_one. simpl. rewrite update_first_amend by exact ND.
    rewrite Forall_map. eapply Forall_impl; [|exact C].
    intros x Hx. unfold amend. destruct (N.eqb _ _); simpl in *; lia.
  - simpl. apply Forall_app. split.
    + eapply Forall_impl; [|exact C]. intros x Hx. simpl in *. lia.
    + constructor; [simpl; lia|constructor].
Qed.

(** X13.  With a clock that does not go back, no document is ever updated
    before it was created: if every document has
    [created_at <= updated_at <= T] and the requests read the clock at
    non-decreasing instants from [T] on, the same holds after them, with
    the last reading in place of [T]. *)
Theorem serve_all_chronological (rs : list upsert_request) :
  forall T c v,
    wf c -> chronological T c -> clock_monotone T rs ->
    exists c' v',
      serve_all cfg rs (World (Some c) v) = World (Some c') v' /\
      chronological (last_now T rs) c'.
Proof.
  induction rs as [|r rs IH]; intros T c v W C M.
  - exists c, v. auto.
  - destruct M as [M1 M2].
    unfold serve_all, last_now. simpl.
    fold (serve_all cfg rs). fold (last_now (rq_now r) rs).
    destruct (serve_cases cfg c v r) as [v' [(u0 & A & E)|E]]; rewrite E.
    + apply IH; [now apply wf_upserted| |exact M2].
      now apply (chronological_upserted T).
    + apply IH; [exact W| |exact M2]. now apply (chronological_later T).
Qed.

End SaveInvariants.

(** ** The save properties on the scenario *)

Lemma no_token_not_accepted (t : datetime) (u : str) :
  ~ authenticates scenario_settings t no_token u.
Proof. intros H. vm_compute in H. discriminate H. Qed.

Lemma keys_unique_one_save : keys_unique one_save.
Proof. repeat constructor. intros []. Qed.

Lemma get_saves_unaccepted_witness :
  exists detail log,
    get_saves scenario_settings (seconds 1059) tower_defence no_token
      (World (Some one_save) [])
    = (HTTPException 401 detail, World (Some one_save) (log ++ [])).
Proof.
  apply (get_saves_unaccepted scenario_settings (seconds 1059) tower_defence
           no_token one_save []).
  - reflexivity.
  - apply no_token_not_accepted.
Defined.

Lemma upsert_save_unaccepted_witness :
  exists detail log,
    upsert_save scenario_settings (seconds 1059) (seconds 1200) tower_defence
      (level 5) no_token (World (Some one_save) [])
    = (HTTPException 401 detail, World (Some one_save) (log ++ [])).
Proof.
  apply (upsert_save_unaccepted scenario_settings (seconds 1059) (seconds 1200)
           tower_defence (level 5) no_token one_save []).
  apply no_token_not_accepted.
Defined.


Lemma serve_all_keys_unique_witness :
  exists c' v',
    serve_all scenario_settings [u1_saves_level_5; u2_saves_level_1; u1_saves_level_5]
      (World (Some one_save) []) = World (Some c') v' /\
    wf c' /\ keys_unique c' /\
    forall u g, (List.length (filter (matches u g) (documents c')) <= 1)%nat.
Proof.
  apply (serve_all_keys_unique scenario_settings
           [u1_saves_level_5; u2_saves_level_1; u1_saves_level_5] one_save []).
  - exact wf_one_save.
  - exact keys_unique_one_save.
Defined.

Lemma serve_all_keeps_documents_witness :
  exists c' v' x',
    serve_all scenario_settings [u1_saves_level_5; u2_saves_level_1]
      (World (Some one_save) []) = World (Some c') v' /\
    In x' (documents c') /\ doc_id x' = doc_id u1_level_3 /\
    user_id x' = user_id u1_level_3 /\ game_slug x' = game_slug u1_level_3 /\
    created_at x' = created_at u1_level_3.
Proof.
  apply (serve_all_keeps_documents scenario_settings
           [u1_saves_level_5; u2_saves_level_1] one_save [] u1_level_3).
  - exact wf_one_save.
  - left. reflexivity.
Defined.


Lemma serve_all_chronological_witness :
  exists c' v',
    serve_all scenario_settings [u1_saves_level_5; u2_saves_level_1]
      (World (Some one_save) []) = World (Some c') v' /\
    chronological (seconds 1300) c'.
Proof.
  apply (serve_all_chronological scenario_settings
           [u1_saves_level_5; u2_saves_level_1] (seconds 1100) one_save []).
  - exact wf_one_save.
  - repeat constructor; vm_compute; discriminate.
  - repeat split; vm_compute; discriminate.
Defined.

(** ** Registration and login *)

(** X14.  A password hash is always 64 lowercase hexadecimal digits, whatever
    the salt and the password. *)
Theorem hash_password_format (salt password : str) :
  List.length (hash_password salt password) = 64%nat /\
  Forall lower_hex (hash_password salt password).
Proof.
  unfold hash_password. split.
  - now rewrite length_hex, length_sha256_digest.
  - apply hex_lower.
Qed.

Example hash_password_secret :
  hash_password default_salt (lit "secret")
  = lit "c365dca6d342d689dbdf973ff096b077158fab838c997a8ce227f8aa64c8eb2b".
Proof. vm_compute. reflexivity. Qed.

Lemma str_eqb_refl (s : str) : str_eqb s s = true.
Proof. now apply str_eqb_eq. Qed.

Lemma length_str_of_oid (id : ObjectId) : List.length (str_of_oid id) = 24%nat.
Proof. unfold str_of_oid. now rewrite length_hex. Qed.

Lemma str_of_oid_identity (id : ObjectId) :
  delimiter_free (str_of_oid id) /\ str_of_oid id <> [].
Proof.
  split; [apply hex_no_colon|].
  intros E. pose proof (length_str_of_oid id) as L. rewrite E in L. discriminate L.
Qed.

Lemma hd_split (sep : ascii) (a r : str) :
  ~ In sep a -> hd [] (split sep (a ++ sep :: r)) = a.
Proof. intros H. now rewrite split_app. Qed.

Section AuthProperties.

Variable cfg : settings.
Variable salt : str.

Lemma register_new (created updated issued : datetime) (p : AuthRequest)
  (c : user_collection) :
  find_user (lower (req_email p)) c = None ->
  register cfg salt created updated issued p (Some c) =
  (Ok (MkAuthResponse
         (create_token cfg issued (str_of_oid (next_user_id c)))
         (UserOut (str_of_oid (next_user_id c)) (display_name p)
                  (lower (req_email p)) None)),
   Some (UserCollection
           (users c ++ [User (next_user_id c) (display_name p)
                          (lower (req_email p))
                          (hash_password salt (req_password p))
                          created updated None])
           (N.succ (next_user_id c)))).
Proof. intros F. unfold register. now rewrite F. Qed.

Lemma register_taken (created updated issued : datetime) (p : AuthRequest)
  (c : user_collection) (x : user) :
  find_user (lower (req_email p)) c = Some x ->
  register cfg salt created updated issued p (Some c) =
  (HTTPException 400 (lit "Email already registered"), Some c).
Proof. intros F. unfold register. now rewrite F. Qed.

Lemma register_ok_inv (created updated issued : datetime) (p : AuthRequest)
  (db0 : option user_collection) (r : AuthResponse) :
  fst (register cfg salt created updated issued p db0) = Ok r ->
  exists c, db0 = Some c /\ find_user (lower (req_email p)) c = None.
Proof.
  destruct db0 as [c|]; [|discriminate].
  destruct (find_user (lower (req_email p)) c) as [x|] eqn:F.
  - rewrite (register_taken _ _ _ _ _ x F). discriminate.
  - intros _. now exists c.
Qed.

Lemma users_wf_register (created updated issued : datetime) (p : AuthRequest)
  (c : user_collection) :
  users_wf c ->
  exists c',
    snd (register cfg salt created updated issued p (Some c)) = Some c' /\
    users_wf c'.
Proof.
  intros (ND & B & NE & L).
  destruct (find_user (lower (req_email p)) c) as [x|] eqn:F.
  - rewrite (register_taken _ _ _ _ _ x F). exists c. repeat split; assumption.
  - rewrite (register_new _ _ _ _ _ F). cbn [snd]. eexists. split; [reflexivity|].
    unfold users_wf. cbn [users next_user_id]. rewrite !map_app. cbn [map user_oid user_email].
    split; [|split; [|split]].
    + apply NoDup_snoc; [exact ND|]. intros H. apply in_map_iff in H.
      destruct H as (y & E & Hy). rewrite Forall_forall in B. apply B in Hy.
      unfold ObjectId in *. lia.
    + apply Forall_app. split.
      * eapply Forall_impl; [|exact B]. intros y Hy. simpl in *. lia.
      * constructor; [simpl; lia|constructor].
    + apply NoDup_snoc; [exact NE|]. intros H. apply in_map_iff in H.
      destruct H as (y & E & Hy). unfold find_user in F.
      apply (find_none _ _ F) in Hy. rewrite E, str_eqb_refl in Hy. discriminate Hy.
    + apply Forall_app. split; [exact L|].
      constructor; [apply lower_idem|constructor].
Qed.

(** X15.  Stored e-mail addresses stay unique and in lower case, and user
    identifiers stay unique, through any sequence of registrations. *)
Theorem enrol_all_users_wf (rs : list register_request) :
  forall c, users_wf c ->
    exists c', enrol_all cfg salt rs (Some c) = Some c' /\ users_wf c'.
Proof.
  induction rs as [|r rs IH]; intros c W.
  - now exists c.
  - unfold enrol_all. simpl. fold (enrol_all cfg salt rs). unfold enrol at 2.
    destruct (users_wf_register (rr_created r) (rr_updated r) (rr_issued r)
                (rr_payload r) c W) as (c1 & E & W1).
    rewrite E. now apply IH.
Qed.

(** X16.  An address can be registered once: after a successful registration,
    a registration with the same address in any letter case fails with
    400 and changes nothing. *)
Theorem register_twice (c1 u1 i1 c2 u2 i2 : datetime) (p q : AuthRequest)
  (db0 : option user_collection) (r : AuthResponse) :
  fst (register cfg salt c1 u1 i1 p db0) = Ok r ->
  lower (req_email q) = lower (req_email p) ->
  register cfg salt c2 u2 i2 q (snd (register cfg salt c1 u1 i1 p db0))
  = (HTTPException 400 (lit "Email already registered"),
     snd (register cfg salt c1 u1 i1 p db0)).
Proof.
  intros H E. destruct (register_ok_inv _ _ _ _ _ _ H) as (c & -> & F).
  rewrite (register_new c1 u1 i1 p c F). cbn [snd].
  eapply register_taken. unfold find_user. cbn [users].
  rewrite find_snoc. unfold find_user in F. rewrite E, F.
  cbn [user_email]. now rewrite str_eqb_refl.
Qed.

(** X17.  Round trip: after a successful registration, a login with the same
    address in any letter case and the same password succeeds for the
    registered user, with a token issued for that user's identifier, and
    changes nothing. *)
Theorem register_then_login (c1 u1 i1 i2 : datetime) (p q : AuthRequest)
  (db0 : option user_collection) (r : AuthResponse) :
  fst (register cfg salt c1 u1 i1 p db0) = Ok r ->
  lower (req_email q) = lower (req_email p) ->
  req_password q = req_password p ->
  login cfg salt i2 q (snd (register cfg salt c1 u1 i1 p db0))
  = (Ok (MkAuthResponse (create_token cfg i2 (out_id (resp_user r))) (resp_user r)),
     snd (register cfg salt c1 u1 i1 p db0)).
Proof.
  intros H E P. destruct (register_ok_inv _ _ _ _ _ _ H) as (c & -> & F).
  rewrite (register_new c1 u1 i1 p c F) in *. cbn [fst snd] in *.
  injection H as <-. cbn [resp_user out_id].
  unfold login, find_user. cbn [users].
  rewrite find_snoc. unfold find_user in F. rewrite E, F.
  cbn [user_email]. rewrite str_eqb_refl.
  cbn [password_hash user_oid user_name user_email avatar_url].
  now rewrite P, str_eqb_refl.
Qed.

(** X18.  A login for an address that no stored user has fails with 401 and
    changes nothing, and so does every login against an empty
    collection. *)
Theorem login_unknown (issued : datetime) (q : AuthRequest) (c : user_collection) :
  ~ In (lower (req_email q)) (map user_email (users c)) ->
  login cfg salt issued q (Some c)
  = (HTTPException 401 (lit "Invalid credentials"), Some c).
Proof.
  intros H. unfold login.
  destruct (find_user (lower (req_email q)) c) as [x|] eqn:F; [|reflexivity].
  exfalso. apply H. unfold find_user in F. apply find_some in F.
  destruct F as [Hx E]. apply str_eqb_eq in E. rewrite <- E. now apply in_map.
Qed.

(** X19.  The token of a registration opens the save routes: presented as a
    bearer token at the instant it was issued, it is accepted as the new
    user's identifier, and a write with it stores a save owned by that
    identifier. *)
Theorem register_then_upsert (c1 u1 issued now : datetime) (p : AuthRequest)
  (db0 : option user_collection) (r : AuthResponse)
  (g : str) (d : dict) (c : collection) (v : list str) :
  fst (register cfg salt c1 u1 issued p db0) = Ok r ->
  0 <= TOKEN_EXP_MIN cfg -> wf c ->
  authenticates cfg issued (bearer (resp_token r)) (out_id (resp_user r)) /\
  exists s w',
    upsert_save cfg issued now g d (bearer (resp_token r)) (World (Some c) v)
    = (Ok (Stored s), w') /\
    user_id s = out_id (resp_user r) /\ game_slug s = g /\ data s = d /\
    updated_at s = now.
Proof.
  intros H T W. destruct (register_ok_inv _ _ _ _ _ _ H) as (uc & -> & F).
  rewrite (register_new c1 u1 issued p uc F) in H. cbn [fst] in H.
  injection H as <-. cbn [resp_token resp_user out_id].
  destruct (str_of_oid_identity (next_user_id uc)) as [D N].
  assert (A : authenticates cfg issued
                (bearer (create_token cfg issued (str_of_oid (next_user_id uc))))
                (str_of_oid (next_user_id uc))).
  { unfold authenticates, bearer.
    change (lit "Bearer " ++ ?t) with (lit "Bearer" ++ " "%char :: t).
    rewrite (get_current_user_id_bearer cfg issued (lit "Bearer") _ _ eq_refl).
    cbn [fst]. rewrite (verify_token_issued cfg issued _ D T).
    destruct (str_of_oid (next_user_id uc)); [contradiction|reflexivity]. }
  split; [exact A|].
  destruct (upsert_save_authenticated cfg issued now g d _ _ c v A) as [log E].
  eexists _, _. split; [exact E|].
  destruct (find_one (str_of_oid (next_user_id uc)) g c) as [x|] eqn:Fx;
    [|repeat split].
  unfold find_one in Fx. apply find_some in Fx. destruct Fx as [_ M].
  apply matches_true in M. destruct M as [Mu Mg]. repeat split; assumption.
Qed.

(** X20.  Without a name, or with an empty one, the stored and returned name is
    the part of the address before its first ["@"], in the letter case
    it was given, while the address is stored in lower case. *)
Theorem register_default_name (c1 u1 issued : datetime) (p : AuthRequest)
  (db0 : option user_collection) (r : AuthResponse) (local_part rest : str) :
  fst (register cfg salt c1 u1 issued p db0) = Ok r ->
  truthy (req_name p) = false ->
  req_email p = local_part ++ "@"%char :: rest -> ~ In "@"%char local_part ->
  out_name (resp_user r) = local_part /\
  out_email (resp_user r) = lower local_part ++ "@"%char :: lower rest.
Proof.
  intros H N E L. destruct (register_ok_inv _ _ _ _ _ _ H) as (uc & -> & F).
  rewrite (register_new c1 u1 issued p uc F) in H. cbn [fst] in H.
  injection H as <-. cbn [resp_user out_name out_email]. split.
  - unfold display_name.
    destruct (req_name p) as [[|x n]|]; try discriminate N;
      rewrite E; now apply hd_split.
  - rewrite E, lower_app. reflexivity.
Qed.

End AuthProperties.

(** ** The registration scenario *)

Lemma users_wf_no_users : users_wf no_users.
Proof. repeat split; constructor. Qed.

Lemma alice_registered_ok : fst alice_registered = Ok alice_response.
Proof. reflexivity. Qed.

Lemma enrol_all_users_wf_witness :
  exists c',
    enrol_all scenario_settings default_salt [alice_registers; alice_registers]
      (Some no_users) = Some c' /\ users_wf c'.
Proof.
  apply (enrol_all_users_wf scenario_settings default_salt
           [alice_registers; alice_registers] no_users).
  exact users_wf_no_users.
Defined.

Lemma register_twice_witness :
  register scenario_settings default_salt (seconds 1100) (seconds 1100)
    (seconds 1100) alice_again (snd alice_registered)
  = (HTTPException 400 (lit "Email already registered"), snd alice_registered).
Proof.
  apply (register_twice scenario_settings default_salt (seconds 1000)
           (seconds 1000) (seconds 1000) (seconds 1100) (seconds 1100)
           (seconds 1100) alice alice_again (Some no_users) alice_response).
  - exact alice_registered_ok.
  - reflexivity.
Defined.

Lemma register_then_login_witness :
  login scenario_settings default_salt (seconds 1100) alice_again
    (snd alice_registered)
  = (Ok (MkAuthResponse
           (create_token scenario_settings (seconds 1100)
              (out_id (resp_user alice_response)))
           (resp_user alice_response)),
     snd alice_registered).
Proof.
  apply (register_then_login scenario_settings default_salt (seconds 1000)
           (seconds 1000) (seconds 1000) (seconds 1100) alice alice_again
           (Some no_users) alice_response).
  - exact alice_registered_ok.
  - reflexivity.
  - reflexivity.
Defined.

Lemma login_unknown_witness :
  login scenario_settings default_salt (seconds 1100) alice (Some no_users)
  = (HTTPException 401 (lit "Invalid credentials"), Some no_users).
Proof.
  apply (login_unknown scenario_settings default_salt (seconds 1100) alice no_users).
  intros [].
Defined.

Lemma register_then_upsert_witness :
  authenticates scenario_settings (seconds 1000)
    (bearer (resp_token alice_response)) (out_id (resp_user alice_response)) /\
  exists s w',
    upsert_save scenario_settings (seconds 1000) (seconds 1001) tower_defence
      (level 3) (bearer (resp_token alice_response)) fresh_world
    = (Ok (Stored s), w') /\
    user_id s = out_id (resp_user alice_response) /\
    game_slug s = tower_defence /\ data s = level 3 /\
    updated_at s = seconds 1001.
Proof.
  apply (register_then_upsert scenario_settings default_salt (seconds 1000)
           (seconds 1000) (seconds 1000) (seconds 1001) alice (Some no_users)
           alice_response tower_defence (level 3) empty_collection []).
  - exact alice_registered_ok.
  - vm_compute. discriminate.
  - exact wf_empty.
Defined.

Lemma register_default_name_witness :
  out_name (resp_user alice_response) = lit "Alice" /\
  out_email (resp_user alice_response)
  = lower (lit "Alice") ++ "@"%char :: lower (lit "example.com").
Proof.
  apply (register_default_name scenario_settings default_salt (seconds 1000)
           (seconds 1000) (seconds 1000) alice (Some no_users) alice_response
           (lit "Alice") (lit "example.com")).
  - exact alice_registered_ok.
  - reflexivity.
  - reflexivity.
  - intros H. vm_compute in H.
    repeat (destruct H as [H|H]; [discriminate H|]). exact H.
Defined.
